(** * Rainbow laser pointer: the trail model of [src/App.tsx]

    A shallow embedding of the [NeonLaserTrail] component: the trail
    points, the trails, the pointer bindings held in the component's refs,
    the three pointer handlers and the state effect of one [render] tick.

    Modelling choices.
    - A JavaScript [number] that holds a coordinate, a hue, an opacity or a
      distance is a real number ([R]); [Math.max], [Math.min], [Math.sqrt]
      and [%] are the corresponding operations on reals.  Rounding,
      [NaN] and the infinities of IEEE doubles are outside the model.
    - A [number] that holds a trail identifier or a touch identifier is an
      integer ([Z]); the counter never leaves the range where [++] is exact.
    - [activeTrailsMap], a [Map<number, number>], is a [gmap Z Z].
    - The refs of the component are the fields of one [State] record, and
      each handler is a function from [State] to [State].  Handlers look a
      trail up in [trailsRef.current] and mutate it in place; nothing keeps
      a trail object across two handlers, so in-place mutation is the
      replacement of the first trail with that identifier.
    - Canvas drawing reads the trails and writes none of them; of [render]
      the model keeps the fade loop and the cleanup. *)

From Stdlib Require Import Reals Lra Lia ZArith List.
From stdpp Require Import gmap.
Import ListNotations.

Open Scope R_scope.

(** ** Numbers *)

#[global] Instance Rlt_decision (a b : R) : Decision (a < b) := Rlt_dec a b.
#[global] Instance Rle_decision (a b : R) : Decision (a <= b) := Rle_dec a b.

(** Truncation toward zero, as in the definition of [%]. *)
Definition Rtrunc (r : R) : Z :=
  if decide (0 <= r) then Int_part r else (- Int_part (- r))%Z.

(** [a % b] on numbers: the remainder has the sign of the dividend. *)
Definition fmod (a b : R) : R := a - b * IZR (Rtrunc (a / b)).

(** ** Data model *)

Record TrailPoint : Type := mkTrailPoint {
  x : R;
  y : R;
  alpha : R;
  hue : R
}.

(** The object type [{ x: number; y: number }] of [lastPoint] and [getPos]. *)
Record Position : Type := mkPosition {
  pos_x : R;
  pos_y : R
}.

Record Trail : Type := mkTrail {
  points : list TrailPoint;
  baseHue : R;
  cumulativeDistance : R;
  lastPoint : option Position;
  lastUpdateTime : R;
  trailId : Z
}.

(** The refs of the component. *)
Record State : Type := mkState {
  trailsRef : list Trail;
  hueRef : R;
  activeTrailsMap : gmap Z Z;
  activeMouseTrailRef : option Z;
  trailIdCounterRef : Z;
  isDrawingRef : bool
}.

Definition initialState : State :=
  {| trailsRef := [];
     hueRef := 0;
     activeTrailsMap := ∅;
     activeMouseTrailRef := None;
     trailIdCounterRef := 0;
     isDrawingRef := false |}.

(** ** Events *)

Record Touch : Type := mkTouch {
  identifier : Z;
  clientX : R;
  clientY : R
}.

(** What [handleStart] and [handleMove] receive.  A touchstart or touchmove
    event lists every contact on the surface, the one that caused it
    included, so [e.touches] is a first contact followed by the others and
    the test [e.touches.length > 0] holds for every touch event. *)
Inductive PointerEvent : Type :=
  | MouseEvent (mouseX mouseY : R)
  | TouchEvent (touch0 : Touch) (others : list Touch) (changedTouches : list Touch).

(** What [handleEnd] reads of its event: whether it has [changedTouches]. *)
Inductive EndEvent : Type :=
  | MouseEnd
  | TouchEnd (changedTouches : list Touch).

(** ** Constants *)

Definition MIN_DISTANCE : R := 1.
Definition FADE_SPEED : R := 6 / 1000.
Definition COLOR_PHASE_DISTANCE : R := 800.

(** ** Curve interpolation *)

Definition catmullRom (t p0 p1 p2 p3 : R) : R :=
  let v0 := (p2 - p0) * (1 / 2) in
  let v1 := (p3 - p1) * (1 / 2) in
  let t2 := t * t in
  let t3 := t * t2 in
  (2 * p1 - 2 * p2 + v0 + v1) * t3 + (-3 * p1 + 3 * p2 - 2 * v0 - v1) * t2 + v0 * t + p1.

(** [points[k]]: [None] is [undefined]. *)
Definition at_index {A : Type} (l : list A) (k : Z) : option A :=
  if (k <? 0)%Z then None else nth_error l (Z.to_nat k).

(** [getInterpolatedPoint]; [None] is the [TypeError] raised on reading a
    field of an [undefined] control point. *)
Definition getInterpolatedPoint (pts : list TrailPoint) (i : Z) (t : R)
  : option TrailPoint :=
  let len := Z.of_nat (length pts) in
  match at_index pts (Z.max 0 (i - 1)), at_index pts i,
        at_index pts (Z.min (len - 1) (i + 1)),
        at_index pts (Z.min (len - 1) (i + 2)) with
  | Some p0, Some p1, Some p2, Some p3 =>
      let a := alpha p1 + (alpha p2 - alpha p1) * t in
      Some {| x := catmullRom t (x p0) (x p1) (x p2) (x p3);
              y := catmullRom t (y p0) (y p1) (y p2) (y p3);
              hue := catmullRom t (hue p0) (hue p1) (hue p2) (hue p3);
              alpha := Rmax 0 (Rmin 1 a) |}
  | _, _, _, _ => None
  end.

(** ** The render tick *)

(** [point.alpha = Math.max(point.alpha - FADE_SPEED, 0)]. *)
Definition fadePoint (p : TrailPoint) : TrailPoint :=
  {| x := x p; y := y p; alpha := Rmax (alpha p - FADE_SPEED) 0; hue := hue p |}.

Definition setPoints (t : Trail) (ps : list TrailPoint) : Trail :=
  {| points := ps;
     baseHue := baseHue t;
     cumulativeDistance := cumulativeDistance t;
     lastPoint := lastPoint t;
     lastUpdateTime := lastUpdateTime t;
     trailId := trailId t |}.

(** The body of [trailsRef.current.forEach]: a trail with fewer than two
    points is left as it is, every other trail has all its points faded. *)
Definition fadeTrail (t : Trail) : Trail :=
  if (length (points t) <? 2)%nat then t
  else setPoints t (map fadePoint (points t)).

Definition isVisible (p : TrailPoint) : bool := bool_decide (0 < alpha p).

(** [.map(trail => ({...trail, points: trail.points.filter(p => p.alpha > 0)}))
     .filter(trail => trail.points.length > 1)]. *)
Definition cleanup (ts : list Trail) : list Trail :=
  List.filter (fun t => (1 <? length (points t))%nat)
    (map (fun t => setPoints t (List.filter isVisible (points t))) ts).

Definition setTrails (s : State) (ts : list Trail) : State :=
  {| trailsRef := ts;
     hueRef := hueRef s;
     activeTrailsMap := activeTrailsMap s;
     activeMouseTrailRef := activeMouseTrailRef s;
     trailIdCounterRef := trailIdCounterRef s;
     isDrawingRef := isDrawingRef s |}.

Definition render (s : State) : State :=
  setTrails s (cleanup (map fadeTrail (trailsRef s))).

(** ** Pointer handlers *)

Definition getPos (e : PointerEvent) : Position :=
  match e with
  | TouchEvent t0 _ _ => {| pos_x := clientX t0; pos_y := clientY t0 |}
  | MouseEvent mx my => {| pos_x := mx; pos_y := my |}
  end.

Definition getDistance (p1 p2 : Position) : R :=
  sqrt ((pos_x p1 - pos_x p2) ^ 2 + (pos_y p1 - pos_y p2) ^ 2).

(** [trailsRef.current.find(trail => trail.trailId === trailId)]. *)
Definition findTrailById (s : State) (id : Z) : option Trail :=
  List.find (fun t => (trailId t =? id)%Z) (trailsRef s).

Definition handleStart (now : R) (e : PointerEvent) (s : State) : State :=
  let pos := getPos e in
  let baseHue := fmod (hueRef s + 30) 360 in
  let trailId := trailIdCounterRef s in
  let p := {| x := pos_x pos; y := pos_y pos; alpha := 1; hue := baseHue |} in
  let newTrail :=
    {| points := [p; p];
       baseHue := baseHue;
       cumulativeDistance := 0;
       lastPoint := Some pos;
       lastUpdateTime := now;
       trailId := trailId |} in
  {| trailsRef := trailsRef s ++ [newTrail];
     hueRef := baseHue;
     activeTrailsMap :=
       match e with
       | TouchEvent t0 _ _ => <[identifier t0 := trailId]> (activeTrailsMap s)
       | MouseEvent _ _ => activeTrailsMap s
       end;
     activeMouseTrailRef :=
       match e with
       | TouchEvent _ _ _ => activeMouseTrailRef s
       | MouseEvent _ _ => Some trailId
       end;
     trailIdCounterRef := (trailIdCounterRef s + 1)%Z;
     isDrawingRef := true |}.

(** The trail [handleMove] resolves for the event's pointer. *)
Definition boundTrail (e : PointerEvent) (s : State) : option Z :=
  match e with
  | TouchEvent t0 _ _ => activeTrailsMap s !! identifier t0
  | MouseEvent _ _ => activeMouseTrailRef s
  end.

(** The mutation of [currentTrail] on an accepted move. *)
Definition extendTrail (pos : Position) (t : Trail) : Trail :=
  let distanceTraveled :=
    match lastPoint t with
    | Some lp => getDistance pos lp
    | None => 0
    end in
  let cumulative := cumulativeDistance t + distanceTraveled in
  let colorProgress := fmod cumulative COLOR_PHASE_DISTANCE / COLOR_PHASE_DISTANCE in
  let currentHue := fmod (baseHue t + colorProgress * 360) 360 in
  {| points := points t ++ [{| x := pos_x pos; y := pos_y pos; alpha := 1; hue := currentHue |}];
     baseHue := baseHue t;
     cumulativeDistance := cumulative;
     lastPoint := Some pos;
     lastUpdateTime := lastUpdateTime t;
     trailId := trailId t |}.

(** In-place mutation of the trail [find] returns: the first one with [id]. *)
Fixpoint updateTrail (id : Z) (f : Trail -> Trail) (ts : list Trail) : list Trail :=
  match ts with
  | [] => []
  | t :: rest =>
      if (trailId t =? id)%Z then f t :: rest else t :: updateTrail id f rest
  end.

(** [getDistance({x, y}, currentTrail.lastPoint) < MIN_DISTANCE], when
    [lastPoint] is not [null]. *)
Definition tooClose (pos : Position) (t : Trail) : bool :=
  match lastPoint t with
  | Some lp => bool_decide (getDistance pos lp < MIN_DISTANCE)
  | None => false
  end.

(** The stale branch: every key bound to [id] leaves the map, and the
    drawing flag is cleared when the map is then empty. *)
Definition dropStale (id : Z) (s : State) : State :=
  let m := filter (fun kv : Z * Z => kv.2 ≠ id) (activeTrailsMap s) in
  {| trailsRef := trailsRef s;
     hueRef := hueRef s;
     activeTrailsMap := m;
     activeMouseTrailRef := activeMouseTrailRef s;
     trailIdCounterRef := trailIdCounterRef s;
     isDrawingRef := if decide (size m = 0%nat) then false else isDrawingRef s |}.

Definition handleMove (e : PointerEvent) (s : State) : State :=
  match boundTrail e s with
  | None => s
  | Some id =>
      match findTrailById s id with
      | None => dropStale id s
      | Some currentTrail =>
          let pos := getPos e in
          if tooClose pos currentTrail then s
          else setTrails s (updateTrail id (extendTrail pos) (trailsRef s))
      end
  end.

Definition handleEnd (e : option EndEvent) (s : State) : State :=
  let m :=
    match e with
    | Some (TouchEnd changed) =>
        fold_left (fun acc t => delete (identifier t) acc) changed (activeTrailsMap s)
    | _ => activeTrailsMap s
    end in
  let mouse :=
    match e with
    | Some (TouchEnd _) => activeMouseTrailRef s
    | _ => None
    end in
  {| trailsRef := trailsRef s;
     hueRef := hueRef s;
     activeTrailsMap := m;
     activeMouseTrailRef := mouse;
     trailIdCounterRef := trailIdCounterRef s;
     isDrawingRef :=
       if decide (size m = 0%nat) then
         match mouse with None => false | Some _ => isDrawingRef s end
       else isDrawingRef s |}.

(** ** The component as a transition system *)

Inductive Event : Type :=
  | Start (now : R) (e : PointerEvent)
  | Move (e : PointerEvent)
  | End (e : option EndEvent)
  | Tick.

Definition step (s : State) (ev : Event) : State :=
  match ev with
  | Start now e => handleStart now e s
  | Move e => handleMove e s
  | End e => handleEnd e s
  | Tick => render s
  end.

Definition run (s : State) (evs : list Event) : State := fold_left step evs s.

Inductive reachable : State -> Prop :=
  | reachable_init : reachable initialState
  | reachable_step s ev : reachable s -> reachable (step s ev).

(** ** The registry of the specification

    [advanceFrame] as the specification words it: every point's alpha is
    decreased by [fadeSpeed] with floor 0, then the points with alpha <= 0
    are removed, then the trails with at most one remaining point. *)

Definition decreaseAlpha (fadeSpeed : R) (p : TrailPoint) : TrailPoint :=
  {| x := x p; y := y p; alpha := Rmax (alpha p - fadeSpeed) 0; hue := hue p |}.

Definition advanceFrame (fadeSpeed : R) (ts : list Trail) : list Trail :=
  let faded := map (fun t => setPoints t (map (decreaseAlpha fadeSpeed) (points t))) ts in
  let pruned :=
    map (fun t => setPoints t
                    (List.filter (fun p => negb (bool_decide (alpha p <= 0))) (points t)))
        faded in
  List.filter (fun t => negb (length (points t) <=? 1)%nat) pruned.

(** ** Well-formed registries

    What holds of every state the handlers and the tick can produce. *)

Definition trailIds (s : State) : list Z := map trailId (trailsRef s).

Definition pointOK (p : TrailPoint) : Prop := 0 < alpha p <= 1.

Definition trailOK (t : Trail) : Prop :=
  (2 <= length (points t))%nat /\
  Forall pointOK (points t) /\
  0 <= cumulativeDistance t /\
  0 <= baseHue t < 360 /\
  lastPoint t <> None.

Record invariant (s : State) : Prop := mkInvariant {
  inv_nodup : List.NoDup (trailIds s);
  inv_fresh : Forall (fun id => (id < trailIdCounterRef s)%Z) (trailIds s);
  inv_trails : Forall trailOK (trailsRef s);
  inv_hue : 0 <= hueRef s < 360
}.

(** The points a trail keeps after one tick, and whether the trail stays. *)
Definition remaining (t : Trail) : list TrailPoint :=
  List.filter isVisible (points (fadeTrail t)).

Definition survives (t : Trail) : bool := (1 <? length (remaining t))%nat.

(** ** A mouse gesture left to fade

    The states of one scenario: the mouse goes down at (10, 10) on the
    initial state and the trail fades, tick after tick, while the button
    stays down.  [mouseDrawn a] is the state in which the two points of the
    trail have opacity [a]; [mouseFaded] is the state after the tick that
    removes the trail. *)

Definition mouseTrail (a : R) : Trail :=
  {| points := [ {| x := 10; y := 10; alpha := a; hue := 30 |};
                 {| x := 10; y := 10; alpha := a; hue := 30 |} ];
     baseHue := 30;
     cumulativeDistance := 0;
     lastPoint := Some {| pos_x := 10; pos_y := 10 |};
     lastUpdateTime := 0;
     trailId := 0 |}.

Definition mouseDrawn (a : R) : State :=
  {| trailsRef := [mouseTrail a];
     hueRef := 30;
     activeTrailsMap := ∅;
     activeMouseTrailRef := Some 0%Z;
     trailIdCounterRef := 1;
     isDrawingRef := true |}.

Definition mouseFaded : State := setTrails (mouseDrawn 1) [].

(** ** Two fingers

    The states of a second scenario: a first contact, with identifier 0,
    touches the surface at (10, 10) and stays; a second contact, with
    identifier 1, then touches it at (200, 200).  The touchstart of the
    second contact lists both contacts in [touches], the older one first,
    and the second one alone in [changedTouches]. *)

Definition contactA : Touch := {| identifier := 0; clientX := 10; clientY := 10 |}.
Definition contactB : Touch := {| identifier := 1; clientX := 200; clientY := 200 |}.

Definition firstDown : State :=
  handleStart 0 (TouchEvent contactA [] [contactA]) initialState.

Definition secondDown : State :=
  handleStart 0 (TouchEvent contactA [contactB] [contactB]) firstDown.

(** The second contact slides to (300, 300). *)
Definition contactB_moved : Touch := {| identifier := 1; clientX := 300; clientY := 300 |}.

Definition secondMoves : PointerEvent :=
  TouchEvent contactA [contactB_moved] [contactB_moved].

(** ** Drawing

    What one tick strokes on the canvas.  A stroke is one micro-segment:
    the gradient runs from [strokeStart] to [strokeEnd], with their hues,
    and both color stops carry the opacity [strokeAlpha].  [None] is the
    [TypeError] that reading a field of an [undefined] point would raise,
    which would end the tick before the cleanup and before the next frame
    is requested. *)

Record Stroke : Type := mkStroke {
  strokeStart : TrailPoint;
  strokeEnd : TrailPoint;
  strokeAlpha : R
}.

Definition segmentSteps : nat := 8.

(** Runs [f] over [l] in order and appends the strokes; the first failure
    ends the loop. *)
Fixpoint collect {A : Type} (f : A -> option (list Stroke)) (l : list A)
  : option (list Stroke) :=
  match l with
  | [] => Some []
  | a :: rest =>
      match f a with
      | None => None
      | Some strokes =>
          match collect f rest with
          | None => None
          | Some more => Some (strokes ++ more)
          end
      end
  end.

(** One iteration of the inner loop, [step] from 0 to 7. *)
Definition drawStep (pts : list TrailPoint) (i : Z) (step : nat) : option (list Stroke) :=
  let t := INR step / INR segmentSteps in
  let nextT := INR (step + 1) / INR segmentSteps in
  match getInterpolatedPoint pts i t with
  | None => None
  | Some startPoint =>
      match getInterpolatedPoint pts i nextT with
      | None => None
      | Some endPoint =>
          if decide (alpha startPoint <= 0) then Some []
          else if decide (alpha endPoint <= 0) then Some []
          else
            let avgAlpha := (alpha startPoint + alpha endPoint) / 2 in
            Some [ {| strokeStart := startPoint; strokeEnd := endPoint;
                      strokeAlpha := avgAlpha |} ]
      end
  end.

(** One iteration of the outer loop: the segment that starts at [points[i]]. *)
Definition drawSegment (pts : list TrailPoint) (i : nat) : option (list Stroke) :=
  match at_index pts (Z.of_nat i) with
  | None => None
  | Some current =>
      if decide (alpha current <= 0) then Some []
      else collect (drawStep pts (Z.of_nat i)) (seq 0 segmentSteps)
  end.

(** [if (points.length >= 2) for (let i = 0; i < points.length - 1; i++)]. *)
Definition drawTrail (pts : list TrailPoint) : option (list Stroke) :=
  if (length pts <? 2)%nat then Some []
  else collect (drawSegment pts) (seq 0 (length pts - 1)).

(** The strokes of one tick: each trail is drawn from its faded points. *)
Definition drawFrame (s : State) : option (list Stroke) :=
  collect (fun t => drawTrail (points (fadeTrail t))) (trailsRef s).

(** What every stroke satisfies: its two ends are visible and its opacity
    is a valid one. *)
Definition strokeOK (st : Stroke) : Prop :=
  0 < alpha (strokeStart st) <= 1 /\
  0 < alpha (strokeEnd st) <= 1 /\
  0 < strokeAlpha st <= 1.

(** ** Pointer bindings

    What holds of the bindings in every reachable state: a bound
    identifier has been handed out by the counter, no two touch
    identifiers are bound to the same trail, and the mouse is not bound to
    the trail of a touch. *)

Record bindingsOK (s : State) : Prop := mkBindingsOK {
  bind_map_below :
    forall k id, activeTrailsMap s !! k = Some id -> (id < trailIdCounterRef s)%Z;
  bind_mouse_below :
    forall id, activeMouseTrailRef s = Some id -> (id < trailIdCounterRef s)%Z;
  bind_injective :
    forall k1 k2 id,
      activeTrailsMap s !! k1 = Some id -> activeTrailsMap s !! k2 = Some id -> k1 = k2;
  bind_mouse_apart :
    forall k id, activeTrailsMap s !! k = Some id -> activeMouseTrailRef s <> Some id
}.

(** ** Hues *)

Definition hueInRange (h : R) : Prop := 0 <= h < 360.

Definition huesOK (s : State) : Prop :=
  hueInRange (hueRef s) /\
  Forall (fun t => hueInRange (baseHue t) /\
                   0 <= cumulativeDistance t /\
                   Forall (fun p => hueInRange (hue p)) (points t))
         (trailsRef s).

(** ** The first variant of the component

    The earlier [NeonLaserTrail] kept in the repository (typed and untyped
    copies of the same code): a trail is a bare array of points, there is
    one hue for the whole component, advanced by every press and every
    move, and a move extends the trail that is last in the registry.  The
    state variable [hue] and the refs are the fields [hue_var],
    [trails_ref] and [drawing_ref]. *)

Module Legacy.

Record State : Type := mkState {
  trails_ref : list (list TrailPoint);
  drawing_ref : bool;
  hue_var : R
}.

Definition initialState : State :=
  {| trails_ref := []; drawing_ref := false; hue_var := 0 |}.

(** [trailStart.alpha = Math.max(trailStart.alpha - 0.01, 0)]. *)
Definition fadePoint (p : TrailPoint) : TrailPoint :=
  mkTrailPoint (x p) (y p) (Rmax (alpha p - 0.01) 0) (hue p).

(** [for (let i = 0; i < trail.length - 1; i++)] fades [trail[i]]: every
    point but the last one. *)
Fixpoint fadeTrail (trail : list TrailPoint) : list TrailPoint :=
  match trail with
  | [] => []
  | [p] => [p]
  | p :: rest => fadePoint p :: fadeTrail rest
  end.

(** [.map(trail => trail.filter(point => point.alpha > 0))
     .filter(trail => trail.length > 1)]. *)
Definition cleanup (ts : list (list TrailPoint)) : list (list TrailPoint) :=
  List.filter (fun trail => (1 <? length trail)%nat)
    (map (List.filter isVisible) ts).

Definition render (s : State) : State :=
  {| trails_ref := cleanup (map fadeTrail (trails_ref s));
     drawing_ref := drawing_ref s;
     hue_var := hue_var s |}.

(** ['touches' in e ? e.touches[0].clientX : e.clientX], and the same for y. *)
Definition getMousePos (e : PointerEvent) : Position :=
  match e with
  | TouchEvent t0 _ _ => {| pos_x := clientX t0; pos_y := clientY t0 |}
  | MouseEvent mx my => {| pos_x := mx; pos_y := my |}
  end.

Definition startDrawing (e : PointerEvent) (s : State) : State :=
  let pos := getMousePos e in
  let h := fmod (hue_var s + 10) 360 in
  {| trails_ref := trails_ref s ++ [[mkTrailPoint (pos_x pos) (pos_y pos) 1 h]];
     drawing_ref := true;
     hue_var := h |}.

Definition stopDrawing (s : State) : State :=
  {| trails_ref := trails_ref s; drawing_ref := false; hue_var := hue_var s |}.

(** [trailsRef.current[trailsRef.current.length - 1].push(...)]. *)
Fixpoint pushToLast (p : TrailPoint) (ts : list (list TrailPoint))
  : list (list TrailPoint) :=
  match ts with
  | [] => []
  | [trail] => [trail ++ [p]]
  | trail :: rest => trail :: pushToLast p rest
  end.

Definition addTrail (e : PointerEvent) (s : State) : State :=
  if drawing_ref s then
    let pos := getMousePos e in
    let h := fmod (hue_var s + 1) 360 in
    {| trails_ref := pushToLast (mkTrailPoint (pos_x pos) (pos_y pos) 1 h) (trails_ref s);
       drawing_ref := drawing_ref s;
       hue_var := h |}
  else s.

Inductive Event : Type :=
  | StartDrawing (e : PointerEvent)
  | StopDrawing
  | AddTrail (e : PointerEvent)
  | Frame.

Definition step (s : State) (ev : Event) : State :=
  match ev with
  | StartDrawing e => startDrawing e s
  | StopDrawing => stopDrawing s
  | AddTrail e => addTrail e s
  | Frame => render s
  end.

Definition run (s : State) (evs : list Event) : State := fold_left step evs s.

Inductive reachable : State -> Prop :=
  | reachable_init : reachable initialState
  | reachable_step s ev : reachable s -> reachable (step s ev).

(** An event that is not a press. *)
Definition notStart (ev : Event) : Prop :=
  match ev with StartDrawing _ => False | _ => True end.

(** What holds of every reachable state of the first variant. *)
Definition pointOK (p : TrailPoint) : Prop :=
  0 < alpha p <= 1 /\ 0 <= hue p < 360.

Definition invariant (s : State) : Prop :=
  0 <= hue_var s < 360 /\
  Forall (fun trail => trail <> [] /\ Forall pointOK trail) (trails_ref s).

End Legacy.

(** * Properties *)

(** ** Arithmetic of [fmod] *)

Lemma Rtrunc_nonneg (r : R) (k : Z) :
  IZR k <= r < IZR k + 1 -> 0 <= r -> Rtrunc r = k.
Proof.
  intros [Hlo Hhi] Hr. unfold Rtrunc.
  destruct (decide (0 <= r)) as [_|Hn]; [|contradiction].
  symmetry. apply Int_part_spec. lra.
Qed.

Lemma Rtrunc_IZR (k : Z) : Rtrunc (IZR k) = k.
Proof.
  unfold Rtrunc. destruct (decide (0 <= IZR k)) as [Hk|Hk].
  - symmetry. apply Int_part_spec. lra.
  - rewrite <- opp_IZR. rewrite <- (Int_part_spec (IZR (- k)) (- k)%Z); [lia|lra].
Qed.

Lemma Rdiv_nonneg (a b : R) : 0 <= a -> 0 < b -> 0 <= a / b.
Proof.
  intros Ha Hb. unfold Rdiv. apply Rmult_le_pos; [exact Ha|].
  left. apply Rinv_0_lt_compat. exact Hb.
Qed.

Lemma Rdiv_below_1 (a b : R) : 0 < b -> a < b -> a / b < 1.
Proof.
  intros Hb Hab. unfold Rdiv.
  apply (Rmult_lt_reg_r b); [exact Hb|].
  rewrite Rmult_assoc, Rinv_l; lra.
Qed.

Lemma fmod_decompose (b r : R) (k : Z) :
  0 < b -> 0 <= r < b -> (0 <= k)%Z -> fmod (IZR k * b + r) b = r.
Proof.
  intros Hb [Hr0 Hr1] Hk. unfold fmod.
  assert (Hq : (IZR k * b + r) / b = IZR k + r / b) by (field; lra).
  assert (Hf : 0 <= r / b < 1).
  { split; [apply Rdiv_nonneg | apply Rdiv_below_1]; lra. }
  assert (Hk' : 0 <= IZR k) by (apply IZR_le; lia).
  rewrite Hq, (Rtrunc_nonneg _ k); lra.
Qed.

Lemma fmod_range (a b : R) : 0 <= a -> 0 < b -> 0 <= fmod a b < b.
Proof.
  intros Ha Hb. unfold fmod, Rtrunc.
  assert (Hq : 0 <= a / b) by (apply Rdiv_nonneg; lra).
  destruct (decide (0 <= a / b)) as [_|Hn]; [|contradiction].
  destruct (base_Int_part (a / b)) as [H1 H2].
  assert (Ha' : a = b * (a / b)) by (field; lra).
  split; nra.
Qed.

Lemma fmod_small (a b : R) : 0 <= a < b -> fmod a b = a.
Proof.
  intros [Ha Hb].
  replace a with (IZR 0 * b + a) at 1 by (simpl; lra).
  apply fmod_decompose; [lra | lra | lia].
Qed.

Lemma fmod_multiple (k : Z) (b : R) : b <> 0 -> fmod (IZR k * b) b = 0.
Proof.
  intros Hb. unfold fmod.
  replace (IZR k * b / b) with (IZR k) by (field; exact Hb).
  rewrite Rtrunc_IZR. ring.
Qed.

(** ** Lists of trails *)

Lemma setPoints_fadeTrail (t : Trail) (ps : list TrailPoint) :
  setPoints (fadeTrail t) ps = setPoints t ps.
Proof. unfold fadeTrail. destruct (length (points t) <? 2)%nat; reflexivity. Qed.

(** One tick, trail by trail. *)
Lemma render_trails (s : State) :
  trailsRef (render s) =
  map (fun t => setPoints t (remaining t)) (List.filter survives (trailsRef s)).
Proof.
  unfold render, cleanup. simpl. induction (trailsRef s) as [|t ts IH]; [reflexivity|].
  simpl. rewrite IH. clear IH.
  change (length (List.filter isVisible (points (fadeTrail t)))) with (length (remaining t)).
  change (1 <? length (remaining t))%nat with (survives t).
  destruct (survives t); [|reflexivity].
  simpl. rewrite setPoints_fadeTrail. reflexivity.
Qed.

Lemma render_ids (s : State) :
  trailIds (render s) = map trailId (List.filter survives (trailsRef s)).
Proof. unfold trailIds. rewrite render_trails, map_map. reflexivity. Qed.

Lemma in_ids_filter (f : Trail -> bool) (ts : list Trail) (id : Z) :
  In id (map trailId (List.filter f ts)) -> In id (map trailId ts).
Proof.
  rewrite !in_map_iff. intros (t & Hid & Ht). apply filter_In in Ht.
  exists t. tauto.
Qed.

Lemma nodup_ids_filter (f : Trail -> bool) (ts : list Trail) :
  List.NoDup (map trailId ts) -> List.NoDup (map trailId (List.filter f ts)).
Proof.
  induction ts as [|t ts IH]; simpl; intros Hnd; [constructor|].
  inversion Hnd as [|? ? Hnotin Hrest]; subst.
  destruct (f t); simpl; [constructor|]; auto.
  intros Hin. apply Hnotin. eapply in_ids_filter. exact Hin.
Qed.

Lemma updateTrail_ids (id : Z) (f : Trail -> Trail) (ts : list Trail) :
  (forall t, trailId (f t) = trailId t) ->
  map trailId (updateTrail id f ts) = map trailId ts.
Proof.
  intros Hf. induction ts as [|t ts IH]; simpl; [reflexivity|].
  destruct (trailId t =? id)%Z; simpl; [rewrite Hf | rewrite IH]; reflexivity.
Qed.

Lemma updateTrail_Forall (P : Trail -> Prop) (id : Z) (f : Trail -> Trail) (ts : list Trail) :
  (forall t, P t -> P (f t)) -> Forall P ts -> Forall P (updateTrail id f ts).
Proof.
  intros Hf. induction 1 as [|t ts Ht Hts IH]; simpl; [constructor|].
  destruct (trailId t =? id)%Z; constructor; auto.
Qed.

Lemma findTrailById_None (s : State) (id : Z) :
  findTrailById s id = None <-> ~ In id (trailIds s).
Proof.
  unfold findTrailById, trailIds. induction (trailsRef s) as [|t ts IH]; simpl.
  - tauto.
  - destruct (Z.eqb_spec (trailId t) id) as [Heq|Hne].
    + split; [discriminate | intros H; exfalso; apply H; left; exact Heq].
    + rewrite IH. tauto.
Qed.

(** ** Fading *)

Lemma FADE_SPEED_pos : 0 < FADE_SPEED.
Proof. unfold FADE_SPEED. lra. Qed.

Lemma fadePoint_alpha_nonneg (p : TrailPoint) : 0 <= alpha (fadePoint p).
Proof. simpl. apply Rmax_r. Qed.

Lemma fadePoint_alpha_le (p : TrailPoint) : 0 <= alpha p -> alpha (fadePoint p) <= alpha p.
Proof.
  intros Hp. simpl. pose proof FADE_SPEED_pos.
  apply Rmax_lub; lra.
Qed.

Lemma fadePoint_alpha_le_1 (p : TrailPoint) : alpha p <= 1 -> alpha (fadePoint p) <= 1.
Proof.
  intros Hp. simpl. pose proof FADE_SPEED_pos.
  apply Rmax_lub; lra.
Qed.

Lemma isVisible_true (p : TrailPoint) : isVisible p = true <-> 0 < alpha p.
Proof. unfold isVisible. apply bool_decide_eq_true. Qed.

Lemma fadeTrail_alpha_le_1 (t : Trail) :
  Forall (fun p => alpha p <= 1) (points t) ->
  Forall (fun p => alpha p <= 1) (points (fadeTrail t)).
Proof.
  intros H. unfold fadeTrail. destruct (length (points t) <? 2)%nat; [exact H|].
  simpl. rewrite List.Forall_forall in *. intros q Hq.
  apply in_map_iff in Hq. destruct Hq as (p & <- & Hp).
  apply fadePoint_alpha_le_1. auto.
Qed.

Lemma remaining_pointOK (t : Trail) :
  Forall pointOK (points t) -> Forall pointOK (remaining t).
Proof.
  intros H. unfold remaining.
  assert (H1 : Forall (fun p => alpha p <= 1) (points (fadeTrail t))).
  { apply fadeTrail_alpha_le_1. eapply List.Forall_impl; [|exact H].
    intros p [_ Hp]. exact Hp. }
  rewrite List.Forall_forall in *. intros p Hp. apply filter_In in Hp.
  destruct Hp as [Hin Hvis]. apply isVisible_true in Hvis.
  split; auto.
Qed.

(** ** The invariant holds in every reachable state *)

Lemma invariant_initial : invariant initialState.
Proof.
  split; simpl; try constructor; lra.
Qed.

Lemma invariant_handleStart (now : R) (e : PointerEvent) (s : State) :
  invariant s -> invariant (handleStart now e s).
Proof.
  intros [Hnd Hfresh Htrails Hhue].
  assert (Hbase : 0 <= fmod (hueRef s + 30) 360 < 360)
    by (apply fmod_range; lra).
  split; unfold trailIds in *; simpl.
  - rewrite map_app. simpl. apply List.NoDup_app.
    + exact Hnd.
    + constructor; [simpl; tauto | constructor].
    + intros id Hin [<-|[]]. rewrite List.Forall_forall in Hfresh.
      specialize (Hfresh _ Hin). simpl in Hfresh. lia.
  - rewrite map_app. apply List.Forall_app. split.
    + eapply List.Forall_impl; [|exact Hfresh]. simpl. intros; lia.
    + simpl. constructor; [lia|constructor].
  - apply List.Forall_app. split; [exact Htrails|].
    constructor; [|constructor]. unfold trailOK. simpl.
    repeat split; try lra; try lia; try discriminate.
    repeat constructor; simpl; lra.
  - exact Hbase.
Qed.

Lemma getDistance_nonneg (p q : Position) : 0 <= getDistance p q.
Proof. unfold getDistance. apply sqrt_pos. Qed.

Lemma extendTrail_id (pos : Position) (t : Trail) : trailId (extendTrail pos t) = trailId t.
Proof. reflexivity. Qed.

Lemma extendTrail_OK (pos : Position) (t : Trail) : trailOK t -> trailOK (extendTrail pos t).
Proof.
  intros (Hlen & Hpts & Hcum & Hbase & Hlast). unfold trailOK. simpl.
  repeat split; try tauto; try discriminate.
  - rewrite length_app. lia.
  - apply List.Forall_app. split; [exact Hpts|].
    constructor; [|constructor]. unfold pointOK. simpl. lra.
  - destruct (lastPoint t) as [lp|]; [|lra].
    pose proof (getDistance_nonneg pos lp). lra.
Qed.

Lemma invariant_setTrails (s : State) (ts : list Trail) :
  List.NoDup (map trailId ts) ->
  (forall id, In id (map trailId ts) -> In id (trailIds s)) ->
  Forall trailOK ts ->
  invariant s -> invariant (setTrails s ts).
Proof.
  intros Hnd Hsub Hok [_ Hfresh _ Hhue].
  split; unfold trailIds in *; simpl; auto.
  rewrite List.Forall_forall in *. auto.
Qed.

Lemma invariant_handleMove (e : PointerEvent) (s : State) :
  invariant s -> invariant (handleMove e s).
Proof.
  intros Hinv. unfold handleMove.
  destruct (boundTrail e s) as [id|]; [|exact Hinv].
  destruct (findTrailById s id) as [t|].
  - destruct (tooClose (getPos e) t); [exact Hinv|].
    pose proof Hinv as [Hnd Hfresh Htrails Hhue].
    apply invariant_setTrails; [| | |exact Hinv].
    + rewrite updateTrail_ids; [exact Hnd | apply extendTrail_id].
    + intros i. rewrite updateTrail_ids; [tauto | apply extendTrail_id].
    + apply updateTrail_Forall; [apply extendTrail_OK | exact Htrails].
  - destruct Hinv as [Hnd Hfresh Htrails Hhue]. split; assumption.
Qed.

Lemma invariant_handleEnd (e : option EndEvent) (s : State) :
  invariant s -> invariant (handleEnd e s).
Proof. intros [Hnd Hfresh Htrails Hhue]. split; assumption. Qed.

Lemma invariant_render (s : State) : invariant s -> invariant (render s).
Proof.
  intros Hinv. pose proof Hinv as [Hnd Hfresh Htrails Hhue].
  unfold render. apply invariant_setTrails; [| | |exact Hinv];
    change (cleanup (map fadeTrail (trailsRef s))) with (trailsRef (render s)).
  - change (List.NoDup (trailIds (render s))). rewrite render_ids.
    apply nodup_ids_filter. exact Hnd.
  - intros id. change (In id (trailIds (render s)) -> In id (trailIds s)).
    rewrite render_ids. apply in_ids_filter.
  - rewrite render_trails. rewrite List.Forall_forall in *.
    intros t' Hin. apply in_map_iff in Hin. destruct Hin as (t & <- & Hin).
    apply filter_In in Hin. destruct Hin as [Hin Hsurv].
    destruct (Htrails _ Hin) as (Hlen & Hpts & Hcum & Hbase & Hlast).
    unfold trailOK. simpl. repeat split; try tauto.
    + unfold survives in Hsurv. apply Nat.ltb_lt in Hsurv. lia.
    + apply remaining_pointOK. exact Hpts.
Qed.

Lemma invariant_step (s : State) (ev : Event) : invariant s -> invariant (step s ev).
Proof.
  destruct ev; simpl;
    [apply invariant_handleStart | apply invariant_handleMove
    | apply invariant_handleEnd | apply invariant_render].
Qed.

Lemma reachable_invariant (s : State) : reachable s -> invariant s.
Proof.
  induction 1 as [|s ev _ IH]; [apply invariant_initial | apply invariant_step; exact IH].
Qed.

Lemma reachable_run (s : State) (evs : list Event) : reachable s -> reachable (run s evs).
Proof.
  revert s. induction evs as [|ev evs IH]; intros s Hs; simpl; [exact Hs|].
  apply IH. constructor. exact Hs.
Qed.

(** ** The tick against the specification's [advanceFrame] *)

Lemma visible_spec (p : TrailPoint) :
  negb (bool_decide (alpha p <= 0)) = isVisible p.
Proof.
  unfold isVisible.
  destruct (decide (alpha p <= 0)) as [H|H], (decide (0 < alpha p)) as [H'|H'];
    rewrite ?(bool_decide_eq_true_2 _ H), ?(bool_decide_eq_false_2 _ H),
            ?(bool_decide_eq_true_2 _ H'), ?(bool_decide_eq_false_2 _ H');
    try reflexivity; lra.
Qed.

Lemma filter_length_le {A : Type} (f : A -> bool) (l : list A) :
  (length (List.filter f l) <= length l)%nat.
Proof.
  induction l as [|a l IH]; simpl; [lia|]. destruct (f a); simpl; lia.
Qed.

Lemma decreaseAlpha_fadePoint : decreaseAlpha FADE_SPEED = fadePoint.
Proof. reflexivity. Qed.

(** Both sides agree trail by trail: a trail the fade loop skips has fewer
    than two points and is dropped whether its points were faded or not. *)
Lemma cleanup_one (t : Trail) :
  let spec_t :=
    setPoints (setPoints t (map (decreaseAlpha FADE_SPEED) (points t)))
      (List.filter (fun p => negb (bool_decide (alpha p <= 0)))
         (points (setPoints t (map (decreaseAlpha FADE_SPEED) (points t))))) in
  let code_t := setPoints (fadeTrail t) (List.filter isVisible (points (fadeTrail t))) in
  negb (length (points spec_t) <=? 1)%nat = (1 <? length (points code_t))%nat /\
  ((1 <? length (points code_t))%nat = true -> spec_t = code_t).
Proof.
  simpl. rewrite decreaseAlpha_fadePoint.
  rewrite (filter_ext _ _ visible_spec).
  unfold fadeTrail. destruct (Nat.ltb_spec (length (points t)) 2) as [Hshort|Hlong].
  - pose proof (filter_length_le isVisible (points t)) as H1.
    pose proof (filter_length_le isVisible (map fadePoint (points t))) as H2.
    rewrite length_map in H2.
    assert (E1 : (length (List.filter isVisible (map fadePoint (points t))) <=? 1)%nat = true)
      by (apply Nat.leb_le; lia).
    assert (E2 : (1 <? length (List.filter isVisible (points t)))%nat = false)
      by (apply Nat.ltb_ge; lia).
    rewrite E1, E2. split; [reflexivity | discriminate].
  - simpl. split; [|reflexivity].
    destruct (Nat.leb_spec (length (List.filter isVisible (map fadePoint (points t)))) 1),
             (Nat.ltb_spec 1 (length (List.filter isVisible (map fadePoint (points t)))));
      simpl; try reflexivity; lia.
Qed.

Lemma render_advanceFrame (s : State) :
  trailsRef (render s) = advanceFrame FADE_SPEED (trailsRef s).
Proof.
  unfold render, advanceFrame, cleanup. simpl.
  induction (trailsRef s) as [|t ts IH]; [reflexivity|].
  simpl. rewrite IH. clear IH.
  destruct (cleanup_one t) as [Hkeep Heq]. simpl in Hkeep, Heq.
  rewrite Hkeep.
  destruct (1 <? length (List.filter isVisible (points (fadeTrail t))))%nat;
    [rewrite Heq|]; reflexivity.
Qed.

(** ** Only the tick removes trails and points *)

Lemma updateTrail_In (id : Z) (f : Trail -> Trail) (ts : list Trail) (t : Trail) :
  In t ts -> exists t', In t' (updateTrail id f ts) /\ (t' = t \/ t' = f t).
Proof.
  induction ts as [|u ts IH]; simpl; [tauto|].
  intros [->|Hin].
  - destruct (trailId t =? id)%Z; eexists; split; [left; reflexivity | | left; reflexivity |]; tauto.
  - destruct (trailId u =? id)%Z.
    + exists t. split; [right; exact Hin | tauto].
    + destruct (IH Hin) as (t' & Hin' & Ht'). exists t'. split; [right; exact Hin' | exact Ht'].
Qed.

Lemma handlers_keep_trails (s : State) (ev : Event) (t : Trail) :
  ev <> Tick -> In t (trailsRef s) ->
  exists t' extra,
    In t' (trailsRef (step s ev)) /\ trailId t' = trailId t /\
    points t' = points t ++ extra /\ Forall (fun p => alpha p = 1) extra.
Proof.
  intros Hev Hin.
  assert (Hsame : exists t' extra, In t' (trailsRef s) /\ trailId t' = trailId t /\
                    points t' = points t ++ extra /\ Forall (fun p => alpha p = 1) extra).
  { exists t, []. rewrite app_nil_r. repeat split; [exact Hin | constructor]. }
  destruct ev as [now e|e|e|]; simpl; [| | exact Hsame | congruence].
  - exists t, []. rewrite app_nil_r. repeat split; [|constructor].
    apply in_or_app. left. exact Hin.
  - unfold handleMove. destruct (boundTrail e s) as [id|]; [|exact Hsame].
    destruct (findTrailById s id) as [cur|]; [|exact Hsame].
    destruct (tooClose (getPos e) cur); [exact Hsame|]. simpl.
    destruct (updateTrail_In id (extendTrail (getPos e)) _ _ Hin) as (t' & Hin' & [->| ->]).
    + exists t, []. rewrite app_nil_r. repeat split; [exact Hin' | constructor].
    + exists (extendTrail (getPos e) t). eexists.
      split; [exact Hin'|]. split; [reflexivity|]. split; [reflexivity|].
      repeat constructor.
Qed.

(** ** A removed trail stays absent *)

Lemma ids_injective (ts : list Trail) (t u : Trail) :
  List.NoDup (map trailId ts) -> In t ts -> In u ts -> trailId t = trailId u -> t = u.
Proof.
  induction ts as [|v ts IH]; simpl; [tauto|].
  intros Hnd Ht Hu Heq. inversion Hnd as [|? ? Hnotin Hrest]; subst.
  destruct Ht as [->|Ht], Hu as [->|Hu]; auto.
  - exfalso. apply Hnotin. rewrite Heq. apply in_map. exact Hu.
  - exfalso. apply Hnotin. rewrite <- Heq. apply in_map. exact Ht.
Qed.

Lemma render_removes (s : State) (t : Trail) :
  List.NoDup (trailIds s) -> In t (trailsRef s) -> survives t = false ->
  ~ In (trailId t) (trailIds (render s)).
Proof.
  intros Hnd Hin Hdead Habs. rewrite render_ids in Habs.
  apply in_map_iff in Habs. destruct Habs as (u & Hid & Hu).
  apply filter_In in Hu. destruct Hu as [Hu Hsurv].
  assert (u = t) by (eapply ids_injective; eauto). subst u. congruence.
Qed.

Lemma step_counter (s : State) (ev : Event) :
  (trailIdCounterRef s <= trailIdCounterRef (step s ev))%Z.
Proof.
  destruct ev as [now e|e|e|]; simpl; try lia.
  unfold handleMove. destruct (boundTrail e s) as [id|]; [|lia].
  destruct (findTrailById s id) as [cur|]; simpl; [|lia].
  destruct (tooClose (getPos e) cur); simpl; lia.
Qed.

Lemma step_ids (s : State) (ev : Event) (id : Z) :
  In id (trailIds (step s ev)) -> In id (trailIds s) \/ id = trailIdCounterRef s.
Proof.
  destruct ev as [now e|e|e|]; unfold trailIds; simpl.
  - rewrite map_app, in_app_iff. simpl. intuition.
  - unfold handleMove. destruct (boundTrail e s) as [i|]; [|tauto].
    destruct (findTrailById s i) as [cur|]; simpl; [|tauto].
    destruct (tooClose (getPos e) cur); simpl; [tauto|].
    rewrite updateTrail_ids; [tauto | apply extendTrail_id].
  - tauto.
  - intros H. left. change (In id (trailIds (render s))) in H.
    rewrite render_ids in H. eapply in_ids_filter. exact H.
Qed.

Lemma absent_run (evs : list Event) (s : State) (id : Z) :
  ~ In id (trailIds s) -> (id < trailIdCounterRef s)%Z ->
  ~ In id (trailIds (run s evs)).
Proof.
  revert s. induction evs as [|ev evs IH]; intros s Habs Hlt; simpl; [exact Habs|].
  apply IH.
  - intros Hin. apply step_ids in Hin. destruct Hin; [tauto | lia].
  - pose proof (step_counter s ev). lia.
Qed.

Lemma dead_trail (t : Trail) :
  (length (List.filter isVisible (map fadePoint (points t))) <= 1)%nat ->
  survives t = false.
Proof.
  intros H. unfold survives, remaining, fadeTrail. apply Nat.ltb_ge.
  destruct (Nat.ltb_spec (length (points t)) 2) as [Hshort|Hlong]; simpl; [|exact H].
  pose proof (filter_length_le isVisible (points t)). lia.
Qed.

(** ** The mouse scenario *)

Lemma mouseDown_state : handleStart 0 (MouseEvent 10 10) initialState = mouseDrawn 1.
Proof.
  unfold handleStart, mouseDrawn, mouseTrail, initialState. simpl.
  assert (H : fmod (0 + 30) 360 = 30).
  { replace (0 + 30) with 30 by lra. apply fmod_small. lra. }
  rewrite H. reflexivity.
Qed.

Lemma render_mouseDrawn (a : R) :
  FADE_SPEED < a -> render (mouseDrawn a) = mouseDrawn (a - FADE_SPEED).
Proof.
  intros Ha. unfold render, cleanup, mouseDrawn, setTrails. simpl.
  unfold fadeTrail, isVisible. simpl.
  rewrite Rmax_left by lra.
  rewrite bool_decide_eq_true_2 by lra. simpl.
  unfold mouseTrail, setPoints, fadePoint. simpl.
  rewrite Rmax_left by lra. reflexivity.
Qed.

Lemma render_mouseDrawn_last (a : R) :
  a <= FADE_SPEED -> render (mouseDrawn a) = mouseFaded.
Proof.
  intros Ha. unfold render, cleanup, mouseDrawn, mouseFaded, setTrails. simpl.
  unfold fadeTrail, isVisible. simpl.
  rewrite Rmax_right by lra.
  rewrite bool_decide_eq_false_2 by lra. reflexivity.
Qed.

Lemma ticks_mouseDrawn (n : nat) :
  INR n * FADE_SPEED < 1 ->
  run (mouseDrawn 1) (repeat Tick n) = mouseDrawn (1 - INR n * FADE_SPEED).
Proof.
  induction n as [|n IH]; intros Hn.
  - simpl. f_equal. lra.
  - rewrite S_INR in Hn. pose proof FADE_SPEED_pos as HF.
    replace (S n) with (n + 1)%nat by lia.
    rewrite repeat_app. unfold run in *. rewrite fold_left_app, IH by nra.
    simpl. rewrite render_mouseDrawn by nra.
    f_equal. rewrite plus_INR. simpl. lra.
Qed.

Lemma reachable_from_initial (evs : list Event) : reachable (run initialState evs).
Proof. apply reachable_run, reachable_init. Qed.

Lemma reachable_mouseDrawn_1 : reachable (mouseDrawn 1).
Proof. rewrite <- mouseDown_state. apply (reachable_from_initial [Start 0 _]). Qed.

(** After 166 ticks the two points are at opacity 0.004. *)
Lemma mouse_scenario_low :
  run initialState (Start 0 (MouseEvent 10 10) :: repeat Tick 166) = mouseDrawn (4 / 1000).
Proof.
  change (run (handleStart 0 (MouseEvent 10 10) initialState) (repeat Tick 166)
          = mouseDrawn (4 / 1000)).
  assert (H166 : INR 166 = 166) by (rewrite INR_IZR_INZ; reflexivity).
  rewrite mouseDown_state, ticks_mouseDrawn by (rewrite H166; unfold FADE_SPEED; lra).
  f_equal. rewrite H166. unfold FADE_SPEED. lra.
Qed.

(** The 167th tick removes the trail; the mouse slot still names it. *)
Lemma mouse_scenario_faded :
  run initialState (Start 0 (MouseEvent 10 10) :: repeat Tick 167) = mouseFaded.
Proof.
  change (Start 0 (MouseEvent 10 10) :: repeat Tick 167)
    with ((Start 0 (MouseEvent 10 10) :: repeat Tick 166) ++ [Tick]).
  unfold run. rewrite fold_left_app. fold (run initialState (Start 0 (MouseEvent 10 10) :: repeat Tick 166)).
  rewrite mouse_scenario_low. simpl.
  apply render_mouseDrawn_last. unfold FADE_SPEED. lra.
Qed.

Lemma reachable_mouseDrawn_low : reachable (mouseDrawn (4 / 1000)).
Proof. rewrite <- mouse_scenario_low. apply reachable_from_initial. Qed.

(** * The claims *)

(** C1. One tick of [render] leaves the registry that [advanceFrame]
    describes: every alpha decreased by [FADE_SPEED] with floor 0, then the
    points with alpha <= 0 removed, then the trails with at most one point
    removed.  No handler removes a trail or a point: after any event other
    than a tick every trail is still registered under its identifier with
    its points, possibly followed by new ones.  And in a reachable state, a
    trail that the tick leaves with at most one point is absent from the
    registry after that tick and after every later sequence of events,
    including those that create trails. *)
Theorem C1_cleanup_sole_destruction (s : State) :
  trailsRef (render s) = advanceFrame FADE_SPEED (trailsRef s) /\
  (forall ev t, ev <> Tick -> In t (trailsRef s) ->
     exists t' extra, In t' (trailsRef (step s ev)) /\
       trailId t' = trailId t /\ points t' = points t ++ extra) /\
  (reachable s ->
   forall t, In t (trailsRef s) ->
     (length (List.filter isVisible (map fadePoint (points t))) <= 1)%nat ->
     forall evs, findTrailById (run (render s) evs) (trailId t) = None).
Proof.
  split; [apply render_advanceFrame|]. split.
  - intros ev t Hev Hin.
    destruct (handlers_keep_trails s ev t Hev Hin) as (t' & extra & H1 & H2 & H3 & _).
    exists t', extra. auto.
  - intros Hreach t Hin Hdead evs.
    destruct (reachable_invariant s Hreach) as [Hnd Hfresh _ _].
    apply findTrailById_None, absent_run.
    + apply render_removes; [exact Hnd | exact Hin | apply dead_trail; exact Hdead].
    + rewrite List.Forall_forall in Hfresh. simpl.
      apply Hfresh. unfold trailIds. apply in_map. exact Hin.
Qed.

Lemma C1_cleanup_sole_destruction_witness :
  reachable (mouseDrawn (4 / 1000)) /\
  In (mouseTrail (4 / 1000)) (trailsRef (mouseDrawn (4 / 1000))) /\
  findTrailById
    (run (render (mouseDrawn (4 / 1000))) [Move (MouseEvent 11 10); Tick; Start 0 (MouseEvent 5 5)])
    (trailId (mouseTrail (4 / 1000))) = None.
Proof.
  split; [exact reachable_mouseDrawn_low|].
  split; [left; reflexivity|].
  apply (proj2 (proj2 (C1_cleanup_sole_destruction (mouseDrawn (4 / 1000))))
           reachable_mouseDrawn_low (mouseTrail (4 / 1000))).
  - left. reflexivity.
  - simpl. unfold isVisible. simpl.
    rewrite Rmax_right by (unfold FADE_SPEED; lra).
    rewrite bool_decide_eq_false_2 by lra. simpl. lia.
Defined.

(** C10. In every reachable state, that is between any two operations,
    each registered trail holds at least two points. *)
Theorem C10_registered_trail_has_two_points (s : State) (t : Trail) :
  reachable s -> In t (trailsRef s) -> (2 <= length (points t))%nat.
Proof.
  intros Hreach Hin. destruct (reachable_invariant s Hreach) as [_ _ Htrails _].
  rewrite List.Forall_forall in Htrails. destruct (Htrails t Hin) as [Hlen _]. exact Hlen.
Qed.

Lemma C10_registered_trail_has_two_points_witness :
  (2 <= length (points (mouseTrail (4 / 1000))))%nat.
Proof.
  apply (C10_registered_trail_has_two_points (mouseDrawn (4 / 1000))).
  - exact reachable_mouseDrawn_low.
  - left. reflexivity.
Defined.

(** ** Curve interpolation *)

Lemma catmullRom_at_0 (p0 p1 p2 p3 : R) : catmullRom 0 p0 p1 p2 p3 = p1.
Proof. unfold catmullRom. ring. Qed.

Lemma at_index_valid {A : Type} (l : list A) (k : Z) :
  (0 <= k < Z.of_nat (length l))%Z -> exists a, at_index l k = Some a.
Proof.
  intros Hk. unfold at_index.
  destruct (Z.ltb_spec k 0) as [Hneg|_]; [lia|].
  destruct (nth_error l (Z.to_nat k)) as [a|] eqn:E; [exists a; reflexivity|].
  apply nth_error_None in E. lia.
Qed.

(** With a valid anchor the four clamped control points exist. *)
Lemma control_points (pts : list TrailPoint) (i : Z) :
  (0 <= i < Z.of_nat (length pts))%Z ->
  exists p0 p1 p2 p3,
    at_index pts (Z.max 0 (i - 1)) = Some p0 /\
    at_index pts i = Some p1 /\
    at_index pts (Z.min (Z.of_nat (length pts) - 1) (i + 1)) = Some p2 /\
    at_index pts (Z.min (Z.of_nat (length pts) - 1) (i + 2)) = Some p3.
Proof.
  intros Hi.
  destruct (at_index_valid pts (Z.max 0 (i - 1))) as [p0 H0]; [lia|].
  destruct (at_index_valid pts i) as [p1 H1]; [lia|].
  destruct (at_index_valid pts (Z.min (Z.of_nat (length pts) - 1) (i + 1))) as [p2 H2]; [lia|].
  destruct (at_index_valid pts (Z.min (Z.of_nat (length pts) - 1) (i + 2))) as [p3 H3]; [lia|].
  exists p0, p1, p2, p3. auto.
Qed.

(** C3. For a sequence of at least one point and a valid anchor [i],
    [getInterpolatedPoint points i 0] returns a sample whose x, y and hue
    are exactly those of [points[i]]: the cubic evaluates to [p1] at
    [t = 0], whatever control points the clamped indices select. *)
Theorem C3_interpolation_at_0_is_anchor (pts : list TrailPoint) (i : Z) :
  (1 <= length pts)%nat -> (0 <= i < Z.of_nat (length pts))%Z ->
  (forall p0 p1 p2 p3, catmullRom 0 p0 p1 p2 p3 = p1) /\
  exists p q,
    at_index pts i = Some p /\
    getInterpolatedPoint pts i 0 = Some q /\
    x q = x p /\ y q = y p /\ hue q = hue p.
Proof.
  intros _ Hi. split; [apply catmullRom_at_0|].
  destruct (control_points pts i Hi) as (p0 & p1 & p2 & p3 & H0 & H1 & H2 & H3).
  exists p1. eexists. split; [exact H1|]. unfold getInterpolatedPoint.
  rewrite H0, H1, H2, H3. split; [reflexivity|].
  simpl. rewrite !catmullRom_at_0. auto.
Qed.

Lemma C3_interpolation_at_0_is_anchor_witness :
  exists q,
    getInterpolatedPoint (points (mouseTrail 1)) 1 0 = Some q /\
    x q = 10 /\ y q = 10 /\ hue q = 30.
Proof.
  destruct (C3_interpolation_at_0_is_anchor (points (mouseTrail 1)) 1) as [_ (p & q & Hp & Hq & Hx & Hy & Hh)].
  - simpl. lia.
  - simpl. lia.
  - exists q. split; [exact Hq|].
    injection Hp as <-. auto.
Defined.

(** C4. For a valid anchor [i] and any [t] (so for [t] in [0,1)), the alpha
    of the interpolated sample is the linear blend
    [p1.alpha + (p2.alpha - p1.alpha) * t] of the anchor and its clamped
    successor, clamped into [0,1]; it lies in [0,1] whatever the stored
    alphas are. *)
Theorem C4_interpolated_alpha_linear_clamped (pts : list TrailPoint) (i : Z) (t : R) :
  (0 <= i < Z.of_nat (length pts))%Z -> 0 <= t < 1 ->
  exists p1 p2 q,
    at_index pts i = Some p1 /\
    at_index pts (Z.min (Z.of_nat (length pts) - 1) (i + 1)) = Some p2 /\
    getInterpolatedPoint pts i t = Some q /\
    alpha q = Rmax 0 (Rmin 1 (alpha p1 + (alpha p2 - alpha p1) * t)) /\
    0 <= alpha q <= 1.
Proof.
  intros Hi _.
  destruct (control_points pts i Hi) as (p0 & p1 & p2 & p3 & H0 & H1 & H2 & H3).
  exists p1, p2. eexists. split; [exact H1|]. split; [exact H2|].
  unfold getInterpolatedPoint. rewrite H0, H1, H2, H3.
  split; [reflexivity|]. simpl. split; [reflexivity|].
  split; [apply Rmax_l|].
  apply Rmax_lub; [lra | apply Rmin_l].
Qed.

Lemma C4_interpolated_alpha_linear_clamped_witness :
  exists q,
    getInterpolatedPoint (points (mouseTrail 7)) 0 (1 / 2) = Some q /\
    alpha q = 1.
Proof.
  destruct (C4_interpolated_alpha_linear_clamped (points (mouseTrail 7)) 0 (1 / 2))
    as (p1 & p2 & q & H1 & H2 & Hq & Ha & Hr).
  - simpl. lia.
  - lra.
  - exists q. split; [exact Hq|].
    injection H1 as <-. injection H2 as <-. rewrite Ha. simpl.
    rewrite Rmin_left by lra. apply Rmax_right. lra.
Defined.

(** ** Opacity over time *)

Lemma iter_fade_bounds (n : nat) (p : TrailPoint) :
  0 <= alpha p <= 1 -> 0 <= alpha (Nat.iter n fadePoint p) <= 1.
Proof.
  intros Hp. induction n as [|n IH]; simpl Nat.iter; [exact Hp|].
  split; [apply fadePoint_alpha_nonneg | apply fadePoint_alpha_le_1; tauto].
Qed.

Lemma render_origin (s : State) (t' : Trail) :
  invariant s -> In t' (trailsRef (render s)) ->
  exists t, In t (trailsRef s) /\ trailId t = trailId t' /\
    points t' = List.filter isVisible (map fadePoint (points t)).
Proof.
  intros [_ _ Htrails _] Hin. rewrite render_trails in Hin.
  apply in_map_iff in Hin. destruct Hin as (t & <- & Hin).
  apply filter_In in Hin. destruct Hin as [Hin _].
  exists t. split; [exact Hin|]. split; [reflexivity|].
  rewrite List.Forall_forall in Htrails. destruct (Htrails t Hin) as [Hlen _].
  simpl. unfold remaining, fadeTrail.
  destruct (Nat.ltb_spec (length (points t)) 2); [lia | reflexivity].
Qed.

(** C2. In a reachable state every stored alpha lies in [0,1] (indeed in
    (0,1]).  A tick replaces the points of each trail it keeps by the
    visible ones among their faded copies, and a faded copy has the same
    position and hue and an alpha that is not larger; any other event
    leaves the points of every registered trail in place and unchanged,
    and appends only points of alpha 1.  Along any number of successive
    fades of a point created with alpha 1, alpha stays in [0,1] and never
    increases from one fade to the next. *)
Theorem C2_alpha_never_increases (s : State) (ev : Event) :
  reachable s ->
  (forall t p, In t (trailsRef s) -> In p (points t) -> 0 < alpha p <= 1) /\
  (forall t', In t' (trailsRef (render s)) ->
     exists t, In t (trailsRef s) /\ trailId t = trailId t' /\
       points t' = List.filter isVisible (map fadePoint (points t))) /\
  (forall p, 0 <= alpha p ->
     alpha (fadePoint p) <= alpha p /\
     x (fadePoint p) = x p /\ y (fadePoint p) = y p /\ hue (fadePoint p) = hue p) /\
  (ev <> Tick ->
   forall t, In t (trailsRef s) ->
     exists t' extra, In t' (trailsRef (step s ev)) /\ trailId t' = trailId t /\
       points t' = points t ++ extra /\ Forall (fun p => alpha p = 1) extra) /\
  (forall p n, alpha p = 1 ->
     0 <= alpha (Nat.iter n fadePoint p) <= 1 /\
     alpha (Nat.iter (S n) fadePoint p) <= alpha (Nat.iter n fadePoint p)).
Proof.
  intros Hreach. pose proof (reachable_invariant s Hreach) as Hinv.
  split; [|split; [|split; [|split]]].
  - intros t p Ht Hp. destruct Hinv as [_ _ Htrails _].
    rewrite List.Forall_forall in Htrails.
    destruct (Htrails t Ht) as (_ & Hpts & _).
    rewrite List.Forall_forall in Hpts. exact (Hpts p Hp).
  - intros t'. apply render_origin. exact Hinv.
  - intros p Hp. split; [apply fadePoint_alpha_le; exact Hp | auto].
  - intros Hev t Ht. apply handlers_keep_trails; assumption.
  - intros p n Hp.
    assert (Hb : 0 <= alpha (Nat.iter n fadePoint p) <= 1)
      by (apply iter_fade_bounds; lra).
    split; [exact Hb|]. simpl Nat.iter. apply fadePoint_alpha_le. tauto.
Qed.

Lemma C2_alpha_never_increases_witness :
  0 < alpha {| x := 10; y := 10; alpha := 1; hue := 30 |} <= 1.
Proof.
  apply (proj1 (C2_alpha_never_increases (mouseDrawn 1) Tick reachable_mouseDrawn_1)
           (mouseTrail 1)).
  - left. reflexivity.
  - left. reflexivity.
Defined.

(** ** Pointer moves *)

Lemma find_updateTrail (id : Z) (f : Trail -> Trail) (ts : list Trail) (t : Trail) :
  (forall u, trailId (f u) = trailId u) ->
  List.find (fun u => (trailId u =? id)%Z) ts = Some t ->
  List.find (fun u => (trailId u =? id)%Z) (updateTrail id f ts) = Some (f t).
Proof.
  intros Hf. induction ts as [|u ts IH]; simpl; [discriminate|].
  destruct (trailId u =? id)%Z eqn:E; simpl.
  - intros [= ->]. rewrite Hf, E. reflexivity.
  - rewrite E. exact IH.
Qed.

Lemma tooClose_false (pos lp : Position) (t : Trail) :
  lastPoint t = Some lp -> MIN_DISTANCE <= getDistance pos lp -> tooClose pos t = false.
Proof.
  intros Hlp Hd. unfold tooClose. rewrite Hlp. apply bool_decide_eq_false_2. lra.
Qed.

Lemma tooClose_true (pos lp : Position) (t : Trail) :
  lastPoint t = Some lp -> getDistance pos lp < MIN_DISTANCE -> tooClose pos t = true.
Proof.
  intros Hlp Hd. unfold tooClose. rewrite Hlp. apply bool_decide_eq_true_2. exact Hd.
Qed.

Lemma handleMove_accepted (e : PointerEvent) (s : State) (id : Z) (t : Trail) :
  boundTrail e s = Some id -> findTrailById s id = Some t ->
  tooClose (getPos e) t = false ->
  findTrailById (handleMove e s) id = Some (extendTrail (getPos e) t).
Proof.
  intros Hb Hf Hc. unfold handleMove. rewrite Hb, Hf, Hc.
  unfold findTrailById. simpl. apply find_updateTrail; [apply extendTrail_id | exact Hf].
Qed.

Lemma handleMove_rejected (e : PointerEvent) (s : State) (id : Z) (t : Trail) :
  boundTrail e s = Some id -> findTrailById s id = Some t ->
  tooClose (getPos e) t = true ->
  handleMove e s = s.
Proof. intros Hb Hf Hc. unfold handleMove. rewrite Hb, Hf, Hc. reflexivity. Qed.

Lemma fmod_850 : fmod 850 COLOR_PHASE_DISTANCE = 50.
Proof.
  unfold COLOR_PHASE_DISTANCE.
  replace 850 with (IZR 1 * 800 + 50) by lra.
  apply fmod_decompose; [lra | lra | lia].
Qed.

(** C5. An accepted move appends one point whose hue is
    [(baseHue + 360 * ((cumulativeDistance mod COLOR_PHASE_DISTANCE) /
    COLOR_PHASE_DISTANCE)) mod 360], the cumulative distance being the one
    stored after the move, the new segment included.  On a trail that has
    not moved yet, a move of 850 gives the color progress 0.0625 and the hue
    [(baseHue + 22.5) mod 360]; when the cumulative distance is an integer
    multiple of [COLOR_PHASE_DISTANCE] the hue is [baseHue mod 360]. *)
Theorem C5_hue_of_appended_point
    (e : PointerEvent) (s : State) (id : Z) (t : Trail) (lp : Position) :
  boundTrail e s = Some id -> findTrailById s id = Some t ->
  lastPoint t = Some lp -> MIN_DISTANCE <= getDistance (getPos e) lp ->
  exists t' h,
    findTrailById (handleMove e s) id = Some t' /\
    cumulativeDistance t' = cumulativeDistance t + getDistance (getPos e) lp /\
    points t' =
      points t ++ [ {| x := pos_x (getPos e); y := pos_y (getPos e); alpha := 1; hue := h |} ] /\
    h = fmod (baseHue t +
              360 * (fmod (cumulativeDistance t') COLOR_PHASE_DISTANCE / COLOR_PHASE_DISTANCE))
             360 /\
    (cumulativeDistance t = 0 -> getDistance (getPos e) lp = 850 ->
       fmod (cumulativeDistance t') COLOR_PHASE_DISTANCE / COLOR_PHASE_DISTANCE = 0.0625 /\
       h = fmod (baseHue t + 22.5) 360) /\
    (forall k : Z, cumulativeDistance t' = IZR k * COLOR_PHASE_DISTANCE ->
       h = fmod (baseHue t) 360).
Proof.
  intros Hb Hf Hlp Hd.
  exists (extendTrail (getPos e) t). eexists.
  split; [apply handleMove_accepted; eauto using tooClose_false|].
  unfold extendTrail. rewrite Hlp. simpl.
  split; [reflexivity|]. split; [reflexivity|].
  split; [f_equal; ring|]. split.
  - intros H0 H850. rewrite H0, H850, Rplus_0_l, fmod_850.
    unfold COLOR_PHASE_DISTANCE. split; [lra | f_equal; lra].
  - intros k Hk. rewrite Hk, fmod_multiple by (unfold COLOR_PHASE_DISTANCE; lra).
    f_equal. unfold COLOR_PHASE_DISTANCE. lra.
Qed.

Lemma distance_along_x (a b c : R) :
  b <= a ->
  getDistance {| pos_x := a; pos_y := c |} {| pos_x := b; pos_y := c |} = a - b.
Proof.
  intros Hab. unfold getDistance. cbn [pos_x pos_y].
  replace ((a - b) ^ 2 + (c - c) ^ 2) with ((a - b) ^ 2) by ring.
  apply sqrt_pow2. lra.
Qed.

Lemma C5_hue_of_appended_point_witness :
  exists t',
    findTrailById (handleMove (MouseEvent 860 10) (mouseDrawn 1)) 0 = Some t' /\
    cumulativeDistance t' = 850 /\
    points t' =
      points (mouseTrail 1) ++
      [ {| x := 860; y := 10; alpha := 1; hue := fmod (30 + 22.5) 360 |} ].
Proof.
  assert (Hd : getDistance (getPos (MouseEvent 860 10)) {| pos_x := 10; pos_y := 10 |} = 850).
  { cbn [getPos]. rewrite distance_along_x; lra. }
  destruct (C5_hue_of_appended_point (MouseEvent 860 10) (mouseDrawn 1) 0 (mouseTrail 1)
              {| pos_x := 10; pos_y := 10 |})
    as (t' & h & Hfind & Hcum & Hpts & _ & H850 & _).
  - reflexivity.
  - reflexivity.
  - reflexivity.
  - rewrite Hd. unfold MIN_DISTANCE. lra.
  - exists t'. split; [exact Hfind|]. split.
    + rewrite Hcum, Hd. simpl. lra.
    + rewrite Hpts. destruct (H850 eq_refl Hd) as [_ ->]. reflexivity.
Defined.

(** C6. A move whose pointer is bound to a registered trail and whose
    position is at a distance strictly below [MIN_DISTANCE] from that
    trail's last recorded position changes nothing: the whole state, and so
    the trail's points, cumulative distance and last position, is the one
    before the event. *)
Theorem C6_close_move_ignored
    (e : PointerEvent) (s : State) (id : Z) (t : Trail) (lp : Position) :
  boundTrail e s = Some id -> findTrailById s id = Some t ->
  lastPoint t = Some lp -> getDistance (getPos e) lp < MIN_DISTANCE ->
  handleMove e s = s.
Proof.
  intros Hb Hf Hlp Hd.
  apply (handleMove_rejected e s id t Hb Hf).
  unfold tooClose. rewrite Hlp. apply bool_decide_eq_true_2. exact Hd.
Qed.

Lemma C6_close_move_ignored_witness :
  handleMove (MouseEvent 10.5 10) (mouseDrawn 1) = mouseDrawn 1.
Proof.
  apply (C6_close_move_ignored (MouseEvent 10.5 10) (mouseDrawn 1) 0 (mouseTrail 1)
           {| pos_x := 10; pos_y := 10 |}).
  - reflexivity.
  - reflexivity.
  - reflexivity.
  - cbn [getPos]. rewrite distance_along_x by lra. unfold MIN_DISTANCE. lra.
Defined.

(** ** Pointer down *)

Lemma find_app_new (ts : list Trail) (t : Trail) :
  ~ In (trailId t) (map trailId ts) ->
  List.find (fun u => (trailId u =? trailId t)%Z) (ts ++ [t]) = Some t.
Proof.
  induction ts as [|u ts IH]; simpl; intros Hnew.
  - rewrite Z.eqb_refl. reflexivity.
  - destruct (Z.eqb_spec (trailId u) (trailId t)) as [Heq|_]; [tauto|].
    apply IH. tauto.
Qed.

Lemma counter_is_fresh (s : State) : invariant s -> ~ In (trailIdCounterRef s) (trailIds s).
Proof.
  intros [_ Hfresh _ _] Hin. rewrite List.Forall_forall in Hfresh.
  specialize (Hfresh _ Hin). simpl in Hfresh. lia.
Qed.

(** X25. [handleStart] takes [(hueRef + 30) mod 360] as the base hue and
    stores it in [hueRef]; it appends to the registry one trail made of two
    points with alpha 1 and that hue, with cumulative distance 0, whose
    identifier is the value of the counter, and increases the counter by
    one.  The two points are at the position [getPos] reads: the mouse
    position, or the position of [e.touches[0]].  The binding goes to the
    mouse slot, or to the identifier of [e.touches[0]] in the map; in both
    cases a move carrying the same first touch, or a mouse move, resolves
    to the new trail.  In a reachable state the identifier is not in use,
    and the new trail is the one a lookup of it returns. *)
Theorem handleStart_creates_trail (now : R) (e : PointerEvent) (s : State) :
  let s' := handleStart now e s in
  let hue0 := fmod (hueRef s + 30) 360 in
  let pos := getPos e in
  let id := trailIdCounterRef s in
  let p := {| x := pos_x pos; y := pos_y pos; alpha := 1; hue := hue0 |} in
  let newTrail :=
    {| points := [p; p]; baseHue := hue0; cumulativeDistance := 0;
       lastPoint := Some pos; lastUpdateTime := now; trailId := id |} in
  hueRef s' = hue0 /\
  trailsRef s' = trailsRef s ++ [newTrail] /\
  trailIdCounterRef s' = (trailIdCounterRef s + 1)%Z /\
  (trailIdCounterRef s < trailIdCounterRef s')%Z /\
  boundTrail e s' = Some id /\
  match e with
  | TouchEvent t0 _ _ =>
      activeTrailsMap s' = <[identifier t0 := id]> (activeTrailsMap s) /\
      activeMouseTrailRef s' = activeMouseTrailRef s
  | MouseEvent _ _ =>
      activeMouseTrailRef s' = Some id /\ activeTrailsMap s' = activeTrailsMap s
  end /\
  (reachable s ->
     ~ In id (trailIds s) /\ findTrailById s' id = Some newTrail /\ reachable s').
Proof.
  cbv zeta. split; [reflexivity|]. split; [reflexivity|].
  split; [reflexivity|]. split; [simpl; lia|]. split.
  { destruct e as [mx my|t0 others changed]; simpl; [reflexivity|].
    apply lookup_insert_eq. }
  split.
  { destruct e; simpl; split; reflexivity. }
  intros Hreach. pose proof (counter_is_fresh s (reachable_invariant s Hreach)) as Hnew.
  split; [exact Hnew|]. split.
  - unfold findTrailById. simpl.
    apply (find_app_new (trailsRef s)
             {| points := _; baseHue := _; cumulativeDistance := _; lastPoint := _;
                lastUpdateTime := _; trailId := trailIdCounterRef s |}).
    exact Hnew.
  - apply (reachable_step s (Start now e)). exact Hreach.
Qed.

Lemma handleStart_creates_trail_witness :
  findTrailById (handleStart 0 (MouseEvent 5 5) (mouseDrawn 1)) 1 =
  Some {| points := [ {| x := 5; y := 5; alpha := 1; hue := fmod (30 + 30) 360 |};
                      {| x := 5; y := 5; alpha := 1; hue := fmod (30 + 30) 360 |} ];
          baseHue := fmod (30 + 30) 360; cumulativeDistance := 0;
          lastPoint := Some {| pos_x := 5; pos_y := 5 |};
          lastUpdateTime := 0; trailId := 1 |}.
Proof.
  destruct (handleStart_creates_trail 0 (MouseEvent 5 5) (mouseDrawn 1))
    as (_ & _ & _ & _ & _ & _ & H).
  destruct (H reachable_mouseDrawn_1) as (_ & Hfind & _).
  exact Hfind.
Defined.

(** C7, on two fingers.  The first contact is down at (10, 10) and the
    second one goes down at (200, 200): its touchstart lists both contacts
    in [touches] and the second alone in [changedTouches].  The handler
    registers trail 1, but its two points and its last position are at
    (10, 10), the position of the first contact, not where the pointer went
    down; and the binding is recorded under identifier 0, the identifier of
    the first contact, while identifier 1, the pointer of the event, is
    left without any binding. *)
Theorem C7_second_press_misplaced :
  let e := TouchEvent contactA [contactB] [contactB] in
  let p := {| x := 10; y := 10; alpha := 1;
              hue := fmod (hueRef firstDown + 30) 360 |} in
  firstDown = run initialState [Start 0 (TouchEvent contactA [] [contactA])] /\
  secondDown = handleStart 0 e firstDown /\
  (exists t, findTrailById secondDown 1 = Some t /\
             points t = [p; p] /\
             lastPoint t = Some {| pos_x := 10; pos_y := 10 |}) /\
  x p <> clientX contactB /\ y p <> clientY contactB /\
  activeTrailsMap secondDown !! identifier contactB = None /\
  activeTrailsMap firstDown !! identifier contactA = Some 0%Z /\
  activeTrailsMap secondDown !! identifier contactA = Some 1%Z.
Proof.
  cbv zeta. split; [reflexivity|]. split; [reflexivity|].
  split; [eexists; split; [reflexivity|]; split; reflexivity|].
  split; [simpl; lra|]. split; [simpl; lra|].
  split; [reflexivity|]. split; reflexivity.
Qed.

(** ** Stale bindings *)

(** X24. A touch whose trail is gone loses its binding on its next move,
    and the registry and the mouse slot are left as they were. *)
Lemma stale_touch_binding_cleared
    (t0 : Touch) (others changed : list Touch) (s : State) (id : Z) :
  activeTrailsMap s !! identifier t0 = Some id -> findTrailById s id = None ->
  let s' := handleMove (TouchEvent t0 others changed) s in
  activeTrailsMap s' !! identifier t0 = None /\
  trailsRef s' = trailsRef s /\
  activeMouseTrailRef s' = activeMouseTrailRef s.
Proof.
  intros Hb Hf. cbv zeta. unfold handleMove. simpl. rewrite Hb, Hf. simpl.
  split; [|split; reflexivity].
  apply map_lookup_filter_None. right. intros v Hv. simpl.
  rewrite Hb in Hv. injection Hv as <-. tauto.
Qed.

(** C8, on the mouse.  The mouse went down, the button was held while the
    trail faded away (167 ticks, state [mouseFaded]), and the mouse now
    moves.  The slot still names trail 0, which is not registered; the move
    changes no trail, but it leaves the stale identifier in the mouse slot,
    so the next move resolves to it again, and it clears the drawing flag
    while that binding remains. *)
Theorem C8_stale_mouse_binding_kept :
  let e := MouseEvent 11 10 in
  run initialState (Start 0 (MouseEvent 10 10) :: repeat Tick 167) = mouseFaded /\
  boundTrail e mouseFaded = Some 0%Z /\
  findTrailById mouseFaded 0 = None /\
  trailsRef (handleMove e mouseFaded) = trailsRef mouseFaded /\
  activeMouseTrailRef (handleMove e mouseFaded) = Some 0%Z /\
  boundTrail e (handleMove e mouseFaded) = Some 0%Z /\
  isDrawingRef mouseFaded = true /\
  isDrawingRef (handleMove e mouseFaded) = false.
Proof.
  cbv zeta. split; [exact mouse_scenario_faded|].
  repeat split; reflexivity.
Qed.

(** C9, on two fingers.  When the second contact goes down while the first
    is held (state [secondDown]), the handler reads the first
    entry of [touches]: the new trail is placed at the first contact's
    position and bound to identifier 0, which replaces the binding of the
    first contact to its own trail, and identifier 1 gets no binding.  A
    move of the second contact is then resolved through identifier 0 and
    the first contact's position, and records nothing. *)
Theorem C9_second_touch_rebinds_first :
  secondDown =
    run initialState [ Start 0 (TouchEvent contactA [] [contactA]);
                       Start 0 (TouchEvent contactA [contactB] [contactB]) ] /\
  activeTrailsMap firstDown !! 0%Z = Some 0%Z /\
  activeTrailsMap secondDown !! 0%Z = Some 1%Z /\
  activeTrailsMap secondDown !! 1%Z = None /\
  (exists t, findTrailById secondDown 1 = Some t /\
             lastPoint t = Some {| pos_x := 10; pos_y := 10 |}) /\
  boundTrail secondMoves secondDown = Some 1%Z /\
  handleMove secondMoves secondDown = secondDown.
Proof.
  split; [reflexivity|].
  split; [reflexivity|]. split; [reflexivity|]. split; [reflexivity|].
  split; [eexists; split; reflexivity|]. split; [reflexivity|].
  eapply handleMove_rejected; [reflexivity | reflexivity |].
  eapply tooClose_true; [reflexivity|].
  unfold secondMoves, contactA. cbn [getPos clientX clientY].
  rewrite distance_along_x by lra. unfold MIN_DISTANCE. lra.
Qed.

(** * Further properties of the component *)

(** ** Drawing *)

Lemma collect_total {A : Type} (f : A -> option (list Stroke)) (l : list A) :
  (forall a, In a l -> exists strokes, f a = Some strokes) ->
  exists strokes, collect f l = Some strokes.
Proof.
  induction l as [|a l IH]; simpl; intros Hf; [eexists; reflexivity|].
  destruct (Hf a) as [bs ->]; [tauto|].
  destruct IH as [r ->]; [intros; apply Hf; tauto|].
  eexists. reflexivity.
Qed.

Lemma collect_Forall {A : Type} (P : Stroke -> Prop)
    (f : A -> option (list Stroke)) (l : list A) (strokes : list Stroke) :
  (forall a bs, In a l -> f a = Some bs -> Forall P bs) ->
  collect f l = Some strokes -> Forall P strokes.
Proof.
  revert strokes. induction l as [|a l IH]; simpl; intros strokes Hf.
  - intros [= <-]. constructor.
  - destruct (f a) as [bs|] eqn:Ea; [|discriminate].
    destruct (collect f l) as [r|]; [|discriminate].
    intros [= <-]. apply List.Forall_app. split.
    + apply (Hf a); [tauto | exact Ea].
    + apply IH; [|reflexivity]. intros b bs' Hb. apply Hf. tauto.
Qed.

Lemma collect_length {A : Type} (n : nat)
    (f : A -> option (list Stroke)) (l : list A) (strokes : list Stroke) :
  (forall a bs, In a l -> f a = Some bs -> (length bs <= n)%nat) ->
  collect f l = Some strokes -> (length strokes <= n * length l)%nat.
Proof.
  revert strokes. induction l as [|a l IH]; simpl; intros strokes Hf.
  - intros [= <-]. simpl. lia.
  - destruct (f a) as [bs|] eqn:Ea; [|discriminate].
    destruct (collect f l) as [r|]; [|discriminate].
    intros [= <-]. rewrite length_app.
    assert (length bs <= n)%nat by (apply (Hf a); [tauto | exact Ea]).
    assert (length r <= n * length l)%nat
      by (apply IH; [|reflexivity]; intros b bs' Hb; apply Hf; tauto).
    lia.
Qed.

Lemma interpolated_exists (pts : list TrailPoint) (i : Z) (t : R) :
  (0 <= i < Z.of_nat (length pts))%Z ->
  exists q, getInterpolatedPoint pts i t = Some q /\ 0 <= alpha q <= 1.
Proof.
  intros Hi.
  destruct (control_points pts i Hi) as (p0 & p1 & p2 & p3 & H0 & H1 & H2 & H3).
  unfold getInterpolatedPoint. rewrite H0, H1, H2, H3.
  eexists. split; [reflexivity|]. simpl.
  split; [apply Rmax_l | apply Rmax_lub; [lra | apply Rmin_l]].
Qed.

Lemma drawStep_spec (pts : list TrailPoint) (i : Z) (step : nat) :
  (0 <= i < Z.of_nat (length pts))%Z ->
  exists strokes,
    drawStep pts i step = Some strokes /\ Forall strokeOK strokes /\
    (length strokes <= 1)%nat.
Proof.
  intros Hi. unfold drawStep.
  destruct (interpolated_exists pts i (INR step / INR segmentSteps) Hi) as (a & -> & Ha).
  destruct (interpolated_exists pts i (INR (step + 1) / INR segmentSteps) Hi) as (b & -> & Hb).
  destruct (decide (alpha a <= 0)) as [|Ha0];
    [eexists; split; [reflexivity|]; split; [constructor | simpl; lia]|].
  destruct (decide (alpha b <= 0)) as [|Hb0];
    [eexists; split; [reflexivity|]; split; [constructor | simpl; lia]|].
  eexists. split; [reflexivity|]. split; [|simpl; lia].
  constructor; [|constructor]. unfold strokeOK. simpl. lra.
Qed.

Lemma drawSegment_spec (pts : list TrailPoint) (i : nat) :
  (i < length pts)%nat ->
  exists strokes,
    drawSegment pts i = Some strokes /\ Forall strokeOK strokes /\
    (length strokes <= segmentSteps)%nat.
Proof.
  intros Hi. unfold drawSegment.
  destruct (at_index_valid pts (Z.of_nat i)) as [cur ->]; [lia|].
  destruct (decide (alpha cur <= 0));
    [eexists; split; [reflexivity|]; split; [constructor | simpl; lia]|].
  assert (Hv : (0 <= Z.of_nat i < Z.of_nat (length pts))%Z) by lia.
  destruct (collect_total (drawStep pts (Z.of_nat i)) (seq 0 segmentSteps)) as [strokes E].
  { intros step _. destruct (drawStep_spec pts _ step Hv) as (bs & -> & _). eauto. }
  exists strokes. split; [exact E|]. split.
  - eapply collect_Forall; [|exact E]. intros step bs _ Ebs.
    destruct (drawStep_spec pts _ step Hv) as (bs' & E' & Hok & _). congruence.
  - assert (Hl : (length strokes <= 1 * length (seq 0 segmentSteps))%nat).
    { eapply collect_length; [|exact E]. intros step bs _ Ebs.
      destruct (drawStep_spec pts _ step Hv) as (bs' & E' & _ & Hlen). congruence. }
    rewrite length_seq in Hl. lia.
Qed.

Lemma drawTrail_spec (pts : list TrailPoint) :
  exists strokes,
    drawTrail pts = Some strokes /\ Forall strokeOK strokes /\
    (length strokes <= segmentSteps * (length pts - 1))%nat.
Proof.
  unfold drawTrail. destruct (Nat.ltb_spec (length pts) 2) as [|Hlen];
    [eexists; split; [reflexivity|]; split; [constructor | simpl; lia]|].
  assert (Hseg : forall i, In i (seq 0 (length pts - 1)) -> (i < length pts)%nat)
    by (intros i Hi; apply in_seq in Hi; lia).
  destruct (collect_total (drawSegment pts) (seq 0 (length pts - 1))) as [strokes E].
  { intros i Hi. destruct (drawSegment_spec pts i (Hseg i Hi)) as (bs & -> & _). eauto. }
  exists strokes. split; [exact E|]. split.
  - eapply collect_Forall; [|exact E]. intros i bs Hi Ebs.
    destruct (drawSegment_spec pts i (Hseg i Hi)) as (bs' & E' & Hok & _). congruence.
  - assert (Hl : (length strokes <= segmentSteps * length (seq 0 (length pts - 1)))%nat).
    { eapply collect_length; [|exact E]. intros i bs Hi Ebs.
      destruct (drawSegment_spec pts i (Hseg i Hi)) as (bs' & E' & _ & Hl). congruence. }
    rewrite length_seq in Hl. exact Hl.
Qed.

Lemma collect_nothing {A : Type} (f : A -> option (list Stroke)) (l : list A) :
  (forall a, In a l -> f a = Some []) -> collect f l = Some [].
Proof.
  induction l as [|a l IH]; simpl; intros Hf; [reflexivity|].
  rewrite (Hf a), IH by (intros; try apply Hf; tauto). reflexivity.
Qed.

(** X1. Drawing a frame never reads an undefined point, whatever the
    registry holds: every control point the loops ask for exists, so the
    tick always reaches its cleanup.  Every stroke it draws joins two
    samples of positive alpha and has an opacity in (0,1]. *)
Theorem drawFrame_never_fails (s : State) :
  exists strokes, drawFrame s = Some strokes /\ Forall strokeOK strokes.
Proof.
  unfold drawFrame.
  destruct (collect_total (fun t => drawTrail (points (fadeTrail t))) (trailsRef s))
    as [strokes E].
  { intros t _. destruct (drawTrail_spec (points (fadeTrail t))) as (bs & -> & _). eauto. }
  exists strokes. split; [exact E|].
  eapply collect_Forall; [|exact E]. intros t bs _ Ebs. simpl in Ebs.
  destruct (drawTrail_spec (points (fadeTrail t))) as (bs' & E' & Hok & _). congruence.
Qed.

(** X2. A trail of n points is drawn with at most 8 * (n - 1) strokes,
    and with none at all when no point of it has a positive alpha: points
    that have faded to 0 stay in the trail until the cleanup but leave no
    mark. *)
Theorem drawTrail_stroke_count (pts : list TrailPoint) :
  exists strokes,
    drawTrail pts = Some strokes /\
    (length strokes <= 8 * (length pts - 1))%nat /\
    (Forall (fun p => alpha p <= 0) pts -> strokes = []).
Proof.
  destruct (drawTrail_spec pts) as (strokes & E & _ & Hlen).
  exists strokes. split; [exact E|]. split; [exact Hlen|].
  intros Hfaded. enough (drawTrail pts = Some []) by congruence.
  unfold drawTrail. destruct (length pts <? 2)%nat; [reflexivity|].
  apply collect_nothing. intros i Hi. apply in_seq in Hi.
  unfold drawSegment.
  destruct (at_index_valid pts (Z.of_nat i)) as [cur Hcur]; [lia|].
  rewrite Hcur. unfold at_index in Hcur.
  destruct (Z.of_nat i <? 0)%Z; [discriminate|].
  apply nth_error_In in Hcur. rewrite List.Forall_forall in Hfaded.
  destruct (decide (alpha cur <= 0)) as [|Hn]; [reflexivity|].
  exfalso. apply Hn. apply Hfaded. exact Hcur.
Qed.

Lemma drawTrail_stroke_count_witness : drawTrail (points (mouseTrail 0)) = Some [].
Proof.
  destruct (drawTrail_stroke_count (points (mouseTrail 0))) as (strokes & E & _ & H).
  rewrite E. f_equal. apply H.
  constructor; [simpl; lra|]. constructor; [simpl; lra | constructor].
Defined.

(** ** The curve between two stored points *)

Lemma catmullRom_derivative (t p0 p1 p2 p3 : R) :
  derivable_pt_lim (fun u => catmullRom u p0 p1 p2 p3) t
    (3 * (2 * p1 - 2 * p2 + (p2 - p0) / 2 + (p3 - p1) / 2) * t ^ 2
     + 2 * (-3 * p1 + 3 * p2 - 2 * ((p2 - p0) / 2) - (p3 - p1) / 2) * t
     + (p2 - p0) / 2).
Proof.
  set (a := 2 * p1 - 2 * p2 + (p2 - p0) / 2 + (p3 - p1) / 2).
  set (b := -3 * p1 + 3 * p2 - 2 * ((p2 - p0) / 2) - (p3 - p1) / 2).
  set (c := (p2 - p0) / 2).
  assert (H : derivable_pt_lim
                (mult_real_fct a (fun u => u ^ 3) + mult_real_fct b (fun u => u ^ 2)
                 + mult_real_fct c id + fct_cte p1)%F
                t (a * (INR 3 * t ^ 2) + b * (INR 2 * t ^ 1) + c * 1 + 0)).
  { repeat apply derivable_pt_lim_plus.
    - apply derivable_pt_lim_scal. apply (derivable_pt_lim_pow t 3).
    - apply derivable_pt_lim_scal. apply (derivable_pt_lim_pow t 2).
    - apply derivable_pt_lim_scal. apply derivable_pt_lim_id.
    - apply derivable_pt_lim_const. }
  intros eps Heps. destruct (H eps Heps) as [delta Hdelta].
  exists delta. intros h Hh Hsmall. specialize (Hdelta h Hh Hsmall).
  unfold plus_fct, mult_real_fct, fct_cte, id in Hdelta. simpl INR in Hdelta.
  replace ((catmullRom (t + h) p0 p1 p2 p3 - catmullRom t p0 p1 p2 p3) / h
           - (3 * a * t ^ 2 + 2 * b * t + c))
    with ((a * (t + h) ^ 3 + b * (t + h) ^ 2 + c * (t + h) + p1
           - (a * t ^ 3 + b * t ^ 2 + c * t + p1)) / h
          - (a * ((1 + 1 + 1) * t ^ 2) + b * ((1 + 1) * t ^ 1) + c * 1 + 0)).
  - exact Hdelta.
  - unfold catmullRom, a, b, c. field. exact Hh.
Qed.

(** X4. The cubic leaves each anchor with the tangent of a Catmull-Rom
    spline: its derivative in [t] is [(p2 - p0) / 2] at [t = 0] and
    [(p3 - p1) / 2] at [t = 1].  So the curve through five consecutive
    channel values arrives at the middle join and leaves it with the same
    slope: the drawn path has no corner at a stored point. *)
Theorem catmullRom_tangents (p0 p1 p2 p3 p4 : R) :
  derivable_pt_lim (fun t => catmullRom t p0 p1 p2 p3) 0 ((p2 - p0) / 2) /\
  derivable_pt_lim (fun t => catmullRom t p0 p1 p2 p3) 1 ((p3 - p1) / 2) /\
  derivable_pt_lim (fun t => catmullRom t p1 p2 p3 p4) 0 ((p3 - p1) / 2).
Proof.
  pose proof (catmullRom_derivative 0 p0 p1 p2 p3) as H0.
  pose proof (catmullRom_derivative 1 p0 p1 p2 p3) as H1.
  pose proof (catmullRom_derivative 0 p1 p2 p3 p4) as H2.
  split; [|split].
  - replace ((p2 - p0) / 2) with
      (3 * (2 * p1 - 2 * p2 + (p2 - p0) / 2 + (p3 - p1) / 2) * 0 ^ 2
       + 2 * (-3 * p1 + 3 * p2 - 2 * ((p2 - p0) / 2) - (p3 - p1) / 2) * 0
       + (p2 - p0) / 2) by field.
    exact H0.
  - replace ((p3 - p1) / 2) with
      (3 * (2 * p1 - 2 * p2 + (p2 - p0) / 2 + (p3 - p1) / 2) * 1 ^ 2
       + 2 * (-3 * p1 + 3 * p2 - 2 * ((p2 - p0) / 2) - (p3 - p1) / 2) * 1
       + (p2 - p0) / 2) by field.
    exact H1.
  - replace ((p3 - p1) / 2) with
      (3 * (2 * p2 - 2 * p3 + (p3 - p1) / 2 + (p4 - p2) / 2) * 0 ^ 2
       + 2 * (-3 * p2 + 3 * p3 - 2 * ((p3 - p1) / 2) - (p4 - p2) / 2) * 0
       + (p3 - p1) / 2) by field.
    exact H2.
Qed.

(** ** Pointer up *)

Lemma delete_all_lookup (changed : list Touch) (m : gmap Z Z) (k : Z) :
  fold_left (fun acc t => delete (identifier t) acc) changed m !! k =
  if existsb (fun t => (identifier t =? k)%Z) changed then None else m !! k.
Proof.
  revert m. induction changed as [|t changed IH]; intros m; simpl; [reflexivity|].
  rewrite IH. destruct (existsb _ changed); [rewrite orb_true_r; reflexivity|].
  rewrite orb_false_r. destruct (Z.eqb_spec (identifier t) k) as [->|Hne].
  - apply lookup_delete_eq.
  - apply lookup_delete_ne. exact Hne.
Qed.

(** X5. A pointer-up never touches a trail, the hue anchor or the counter.
    A touch end removes from the map the identifiers listed in
    [changedTouches], and only those, and leaves the mouse slot; a mouse
    up, a mouse leave or a call without event empties the mouse slot and
    leaves the map. *)
Theorem handleEnd_bindings (e : option EndEvent) (s : State) :
  trailsRef (handleEnd e s) = trailsRef s /\
  hueRef (handleEnd e s) = hueRef s /\
  trailIdCounterRef (handleEnd e s) = trailIdCounterRef s /\
  match e with
  | Some (TouchEnd changed) =>
      activeMouseTrailRef (handleEnd e s) = activeMouseTrailRef s /\
      forall k,
        activeTrailsMap (handleEnd e s) !! k =
        if existsb (fun t => (identifier t =? k)%Z) changed then None
        else activeTrailsMap s !! k
  | _ =>
      activeMouseTrailRef (handleEnd e s) = None /\
      activeTrailsMap (handleEnd e s) = activeTrailsMap s
  end.
Proof.
  split; [reflexivity|]. split; [reflexivity|]. split; [reflexivity|].
  destruct e as [[|changed]|]; simpl; split; try reflexivity.
  intros k. apply delete_all_lookup.
Qed.

(** X6. After a pointer-up the drawing flag is off when no binding is
    left, neither in the map nor in the mouse slot, and is the flag of
    before when some binding is left. *)
Theorem handleEnd_drawing_flag (e : option EndEvent) (s : State) :
  let s' := handleEnd e s in
  (activeTrailsMap s' = ∅ -> activeMouseTrailRef s' = None -> isDrawingRef s' = false) /\
  (activeTrailsMap s' <> ∅ \/ activeMouseTrailRef s' <> None ->
   isDrawingRef s' = isDrawingRef s).
Proof.
  cbv zeta. unfold handleEnd. simpl.
  set (m := match e with
            | Some (TouchEnd changed) =>
                fold_left (fun acc t => delete (identifier t) acc) changed (activeTrailsMap s)
            | _ => activeTrailsMap s
            end).
  set (mouse := match e with
                | Some (TouchEnd _) => activeMouseTrailRef s
                | _ => None
                end).
  split.
  - intros Hm Hmouse. rewrite Hm, Hmouse, map_size_empty. reflexivity.
  - intros [Hm|Hmouse].
    + destruct (decide (size m = 0%nat)) as [Hsize|]; [|reflexivity].
      apply map_size_empty_iff in Hsize. contradiction.
    + destruct (decide (size m = 0%nat)); [|reflexivity].
      destruct mouse; [reflexivity | contradiction].
Qed.

Lemma handleEnd_drawing_flag_witness :
  isDrawingRef (handleEnd (Some MouseEnd) (mouseDrawn 1)) = false /\
  isDrawingRef (handleEnd (Some (TouchEnd [contactB])) (mouseDrawn 1)) = true.
Proof.
  split.
  - apply (proj1 (handleEnd_drawing_flag (Some MouseEnd) (mouseDrawn 1))); reflexivity.
  - apply (proj2 (handleEnd_drawing_flag (Some (TouchEnd [contactB])) (mouseDrawn 1))).
    right. discriminate.
Defined.

(** X7. Once a pointer is up its moves draw nothing: a mouse move after a
    mouse up (or after a call of [handleEnd] without event), and a touch
    move whose first touch was listed in the [changedTouches] of the touch
    end, leave the state as the pointer-up left it. *)
Theorem move_after_end_ignored (s : State) :
  (forall mx my,
     handleMove (MouseEvent mx my) (handleEnd (Some MouseEnd) s) = handleEnd (Some MouseEnd) s) /\
  (forall mx my,
     handleMove (MouseEvent mx my) (handleEnd None s) = handleEnd None s) /\
  (forall changed t0 others ch,
     existsb (fun t => (identifier t =? identifier t0)%Z) changed = true ->
     handleMove (TouchEvent t0 others ch) (handleEnd (Some (TouchEnd changed)) s)
     = handleEnd (Some (TouchEnd changed)) s).
Proof.
  split; [reflexivity|]. split; [reflexivity|].
  intros changed t0 others ch H. unfold handleMove.
  assert (Hb : boundTrail (TouchEvent t0 others ch) (handleEnd (Some (TouchEnd changed)) s)
               = None).
  { simpl. rewrite delete_all_lookup, H. reflexivity. }
  rewrite Hb. reflexivity.
Qed.

Lemma move_after_end_ignored_witness :
  handleMove (TouchEvent contactA [contactB] [contactA])
    (handleEnd (Some (TouchEnd [contactB; contactA])) secondDown)
  = handleEnd (Some (TouchEnd [contactB; contactA])) secondDown.
Proof.
  apply (proj2 (proj2 (move_after_end_ignored secondDown))). reflexivity.
Defined.

Lemma ticks_after_end (n : nat) (e : option EndEvent) (s : State) :
  run (handleEnd e s) (repeat Tick n) = handleEnd e (run s (repeat Tick n)).
Proof.
  revert s. induction n as [|n IH]; intros s; [reflexivity|].
  simpl. change (render (handleEnd e s)) with (handleEnd e (render s)).
  apply (IH (render s)).
Qed.

(** X8. Releasing a pointer and fading commute: a pointer-up followed by
    any number of ticks gives the state of those ticks followed by the
    pointer-up, and the trails are those of the ticks alone.  Lifting a
    finger or the button changes nothing to how the trails dissolve. *)
Theorem handleEnd_ticks_commute (n : nat) (e : option EndEvent) (s : State) :
  run (handleEnd e s) (repeat Tick n) = handleEnd e (run s (repeat Tick n)) /\
  trailsRef (run (handleEnd e s) (repeat Tick n)) = trailsRef (run s (repeat Tick n)).
Proof.
  split; [apply ticks_after_end|]. rewrite ticks_after_end. reflexivity.
Qed.

(** ** Pointer moves, again *)

Lemma getDistance_self (p : Position) : getDistance p p = 0.
Proof.
  unfold getDistance.
  replace ((pos_x p - pos_x p) ^ 2 + (pos_y p - pos_y p) ^ 2) with 0 by ring.
  apply sqrt_0.
Qed.

Lemma dropStale_twice (id : Z) (s : State) : dropStale id (dropStale id s) = dropStale id s.
Proof.
  unfold dropStale. simpl.
  set (m := filter (fun kv : Z * Z => kv.2 ≠ id) (activeTrailsMap s)).
  assert (Hm : filter (fun kv : Z * Z => kv.2 ≠ id) m = m).
  { apply map_filter_id. intros k v Hkv. unfold m in Hkv.
    apply map_lookup_filter_Some in Hkv. tauto. }
  rewrite Hm. destruct (decide (size m = 0%nat)); reflexivity.
Qed.

(** X9. A move event handled twice in a row has the effect of handling it
    once, in every state: an accepted move makes its own position the last
    recorded one, so its repetition is within [MIN_DISTANCE] and is
    ignored, and the cleanup of a stale binding has nothing left to clean. *)
Theorem handleMove_idempotent (e : PointerEvent) (s : State) :
  handleMove e (handleMove e s) = handleMove e s.
Proof.
  remember (handleMove e s) as s' eqn:Hs'. unfold handleMove in Hs'.
  destruct (boundTrail e s) as [id|] eqn:Hb.
  - destruct (findTrailById s id) as [t|] eqn:Hf.
    + destruct (tooClose (getPos e) t) eqn:Hc; subst s'.
      * unfold handleMove. rewrite Hb, Hf, Hc. reflexivity.
      * apply (handleMove_rejected e _ id (extendTrail (getPos e) t)).
        -- destruct e; exact Hb.
        -- unfold findTrailById. simpl.
           apply find_updateTrail; [apply extendTrail_id | exact Hf].
        -- unfold tooClose, extendTrail. simpl.
           apply bool_decide_eq_true_2. rewrite getDistance_self.
           unfold MIN_DISTANCE. lra.
    + subst s'. unfold handleMove.
      destruct (boundTrail e (dropStale id s)) as [id'|] eqn:Hb'; [|reflexivity].
      destruct e as [mx my|t0 others ch]; simpl in Hb, Hb'.
      * assert (id' = id) by congruence. subst id'.
        change (findTrailById (dropStale id s) id) with (findTrailById s id).
        rewrite Hf. apply dropStale_twice.
      * apply map_lookup_filter_Some in Hb'. destruct Hb' as [Hb' Hne].
        simpl in Hne. congruence.
  - subst s'. unfold handleMove. rewrite Hb. reflexivity.
Qed.

Lemma stale_touch_binding_cleared_witness :
  activeTrailsMap
    (handleMove (TouchEvent contactA [] [contactA]) (setTrails firstDown []))
    !! 0%Z = None.
Proof.
  apply (stale_touch_binding_cleared contactA [] [contactA] (setTrails firstDown []) 0).
  - reflexivity.
  - reflexivity.
Defined.

(** ** Bindings in reachable states *)

Lemma bindingsOK_shrink (s s' : State) :
  (trailIdCounterRef s <= trailIdCounterRef s')%Z ->
  (forall k id, activeTrailsMap s' !! k = Some id -> activeTrailsMap s !! k = Some id) ->
  (forall id, activeMouseTrailRef s' = Some id -> activeMouseTrailRef s = Some id) ->
  bindingsOK s -> bindingsOK s'.
Proof.
  intros Hc Hm Hmouse [Hbelow Hmbelow Hinj Hapart]. split.
  - intros k id Hk. specialize (Hbelow k id (Hm k id Hk)). lia.
  - intros id Hid. specialize (Hmbelow id (Hmouse id Hid)). lia.
  - intros k1 k2 id H1 H2. eapply Hinj; eauto.
  - intros k id Hk Habs. apply (Hapart k id (Hm k id Hk)). auto.
Qed.

Lemma bindingsOK_handleStart (now : R) (e : PointerEvent) (s : State) :
  bindingsOK s -> bindingsOK (handleStart now e s).
Proof.
  intros [Hbelow Hmbelow Hinj Hapart].
  destruct e as [mx my|t0 others ch]; split; simpl.
  - intros k id Hk. specialize (Hbelow k id Hk). lia.
  - intros id [= <-]. lia.
  - exact Hinj.
  - intros k id Hk [= Heq]. specialize (Hbelow k id Hk). lia.
  - intros k id. rewrite lookup_insert. destruct (decide (identifier t0 = k)).
    + intros [= <-]. lia.
    + intros Hk. specialize (Hbelow k id Hk). lia.
  - intros id Hid. specialize (Hmbelow id Hid). lia.
  - intros k1 k2 id. rewrite !lookup_insert.
    destruct (decide (identifier t0 = k1)), (decide (identifier t0 = k2)).
    + congruence.
    + intros [= <-] H2. specialize (Hbelow k2 _ H2). lia.
    + intros H1 [= <-]. specialize (Hbelow k1 _ H1). lia.
    + apply Hinj.
  - intros k id. rewrite lookup_insert. destruct (decide (identifier t0 = k)).
    + intros [= <-] Hmouse. specialize (Hmbelow _ Hmouse). lia.
    + apply Hapart.
Qed.

Lemma bindingsOK_step (s : State) (ev : Event) : bindingsOK s -> bindingsOK (step s ev).
Proof.
  destruct ev as [now e|e|e|]; simpl.
  - apply bindingsOK_handleStart.
  - unfold handleMove. destruct (boundTrail e s) as [id|]; [|tauto].
    destruct (findTrailById s id) as [t|].
    + destruct (tooClose (getPos e) t); [tauto|].
      apply bindingsOK_shrink; simpl; auto; lia.
    + apply bindingsOK_shrink; simpl; auto; [lia|].
      intros k v Hk. apply map_lookup_filter_Some in Hk. tauto.
  - apply bindingsOK_shrink; simpl; [lia| |].
    + intros k id. destruct e as [[|changed]|]; auto.
      rewrite delete_all_lookup. destruct (existsb _ changed); [discriminate | auto].
    + intros id. destruct e as [[|changed]|]; auto; discriminate.
  - apply bindingsOK_shrink; simpl; auto; lia.
Qed.

(** X10. In every reachable state each bound trail identifier, in the map
    or in the mouse slot, is below the counter, no two touch identifiers
    are bound to the same trail, and the mouse is not bound to the trail of
    a touch: a trail is extended by at most one pointer. *)
Theorem reachable_bindings (s : State) : reachable s -> bindingsOK s.
Proof.
  induction 1 as [|s ev _ IH]; [|apply bindingsOK_step; exact IH].
  split; simpl; intros *; try rewrite lookup_empty; discriminate.
Qed.

Lemma reachable_bindings_witness :
  activeMouseTrailRef (handleStart 0 (MouseEvent 5 5) secondDown) <> Some 1%Z.
Proof.
  apply (bind_mouse_apart _
           (reachable_bindings (handleStart 0 (MouseEvent 5 5) secondDown)
              (reachable_from_initial
                 [ Start 0 (TouchEvent contactA [] [contactA]);
                   Start 0 (TouchEvent contactA [contactB] [contactB]);
                   Start 0 (MouseEvent 5 5) ]))
           0%Z 1%Z).
  reflexivity.
Defined.

(** ** Hues and distances in reachable states *)

Lemma extendTrail_hue (pos : Position) (t : Trail) :
  hueInRange (baseHue t) -> 0 <= cumulativeDistance t ->
  exists h,
    points (extendTrail pos t) =
      points t ++ [ {| x := pos_x pos; y := pos_y pos; alpha := 1; hue := h |} ] /\
    hueInRange h /\ 0 <= cumulativeDistance (extendTrail pos t).
Proof.
  intros [Hb0 Hb1] Hcum. eexists. split; [reflexivity|]. simpl.
  set (d := match lastPoint t with Some lp => getDistance pos lp | None => 0 end).
  assert (Hd : 0 <= d).
  { unfold d. destruct (lastPoint t); [apply getDistance_nonneg | lra]. }
  split; [|lra].
  destruct (fmod_range (cumulativeDistance t + d) COLOR_PHASE_DISTANCE) as [Hp0 Hp1];
    [lra | unfold COLOR_PHASE_DISTANCE; lra |].
  apply fmod_range; [|lra].
  assert (0 <= fmod (cumulativeDistance t + d) COLOR_PHASE_DISTANCE / COLOR_PHASE_DISTANCE)
    by (apply Rdiv_nonneg; [exact Hp0 | unfold COLOR_PHASE_DISTANCE; lra]).
  lra.
Qed.

Lemma huesOK_step (s : State) (ev : Event) : huesOK s -> huesOK (step s ev).
Proof.
  intros [Hhue Htrails].
  destruct ev as [now e|e|e|]; simpl.
  - assert (Hbase : hueInRange (fmod (hueRef s + 30) 360)).
    { destruct Hhue. apply fmod_range; lra. }
    split; [exact Hbase|]. simpl. apply List.Forall_app. split; [exact Htrails|].
    constructor; [|constructor]. simpl. split; [exact Hbase|]. split; [lra|].
    constructor; [exact Hbase|]. constructor; [exact Hbase | constructor].
  - unfold handleMove. destruct (boundTrail e s) as [id|]; [|split; assumption].
    destruct (findTrailById s id) as [t|]; [|split; assumption].
    destruct (tooClose (getPos e) t); [split; assumption|].
    split; [exact Hhue|]. simpl. apply updateTrail_Forall; [|exact Htrails].
    intros u (Hb & Hc & Hp).
    destruct (extendTrail_hue (getPos e) u Hb Hc) as (h & Hpts & Hh & Hc').
    split; [exact Hb|]. split; [exact Hc'|].
    rewrite Hpts. apply List.Forall_app. split; [exact Hp|].
    constructor; [exact Hh | constructor].
  - split; assumption.
  - split; [exact Hhue|]. rewrite render_trails.
    rewrite List.Forall_forall in *. intros t' Hin.
    apply in_map_iff in Hin. destruct Hin as (t & <- & Hin).
    apply filter_In in Hin. destruct Hin as [Hin _].
    destruct (Htrails t Hin) as (Hb & Hc & Hp). simpl.
    split; [exact Hb|]. split; [exact Hc|].
    rewrite List.Forall_forall in *. intros p Hp'. unfold remaining in Hp'.
    apply filter_In in Hp'. destruct Hp' as [Hp' _].
    unfold fadeTrail in Hp'. destruct (length (points t) <? 2)%nat; [auto|].
    simpl in Hp'. apply in_map_iff in Hp'. destruct Hp' as (q & <- & Hq).
    simpl. auto.
Qed.

(** X11. In every reachable state the hue anchor, the base hue of every
    trail and the hue of every stored point lie in [0, 360), and no
    cumulative distance is negative. *)
Theorem reachable_hues (s : State) :
  reachable s ->
  0 <= hueRef s < 360 /\
  forall t, In t (trailsRef s) ->
    0 <= baseHue t < 360 /\ 0 <= cumulativeDistance t /\
    forall p, In p (points t) -> 0 <= hue p < 360.
Proof.
  intros Hreach.
  assert (H : huesOK s).
  { induction Hreach as [|s ev _ IH]; [|apply huesOK_step; exact IH].
    split; [unfold hueInRange; simpl; lra | constructor]. }
  destruct H as [Hhue Htrails]. split; [exact Hhue|].
  intros t Ht. rewrite List.Forall_forall in Htrails.
  destruct (Htrails t Ht) as (Hb & Hc & Hp).
  split; [exact Hb|]. split; [exact Hc|].
  rewrite List.Forall_forall in Hp. exact Hp.
Qed.

Lemma reachable_hues_witness : 0 <= hueRef secondDown < 360.
Proof.
  apply (proj1 (reachable_hues secondDown
                  (reachable_from_initial
                     [ Start 0 (TouchEvent contactA [] [contactA]);
                       Start 0 (TouchEvent contactA [contactB] [contactB]) ]))).
Defined.

(** ** Trails over time *)

(** X12. In a reachable state a lookup by the identifier of a registered
    trail returns that very trail: identifiers are never shared. *)
Theorem findTrailById_registered (s : State) (t : Trail) :
  reachable s -> In t (trailsRef s) -> findTrailById s (trailId t) = Some t.
Proof.
  intros Hreach Hin. destruct (reachable_invariant s Hreach) as [Hnd _ _ _].
  destruct (findTrailById s (trailId t)) as [u|] eqn:E.
  - unfold findTrailById in E. apply find_some in E. destruct E as [Hu Hid].
    apply Z.eqb_eq in Hid. f_equal. eapply ids_injective; eauto.
  - apply findTrailById_None in E. exfalso. apply E.
    unfold trailIds. apply in_map. exact Hin.
Qed.

Lemma findTrailById_registered_witness :
  findTrailById (mouseDrawn (4 / 1000)) 0 = Some (mouseTrail (4 / 1000)).
Proof.
  apply (findTrailById_registered (mouseDrawn (4 / 1000)) (mouseTrail (4 / 1000))).
  - exact reachable_mouseDrawn_low.
  - left. reflexivity.
Defined.

Lemma updateTrail_origin (id : Z) (f : Trail -> Trail) (ts : list Trail) (t' : Trail) :
  In t' (updateTrail id f ts) -> exists u, In u ts /\ (t' = u \/ t' = f u).
Proof.
  induction ts as [|u ts IH]; simpl; [tauto|].
  destruct (trailId u =? id)%Z; simpl.
  - intros [<-|Hin]; [exists u; tauto | exists t'; tauto].
  - intros [<-|Hin]; [exists u; tauto|].
    destruct (IH Hin) as (v & Hv & Hor). exists v. tauto.
Qed.

(** What a trail may become in one step: itself, itself after the tick,
    or itself extended by an accepted move. *)
Lemma step_trail_origin (s : State) (ev : Event) (t' : Trail) :
  In t' (trailsRef (step s ev)) ->
  (exists u, In u (trailsRef s) /\
     (t' = u \/ t' = setPoints u (remaining u) \/ exists pos, t' = extendTrail pos u)) \/
  trailId t' = trailIdCounterRef s.
Proof.
  destruct ev as [now e|e|e|]; simpl.
  - intros Hin. apply in_app_or in Hin. destruct Hin as [Hin|[<-|[]]].
    + left. exists t'. tauto.
    + right. reflexivity.
  - unfold handleMove. destruct (boundTrail e s) as [id|]; [|left; exists t'; tauto].
    destruct (findTrailById s id) as [t|]; [|left; exists t'; tauto].
    destruct (tooClose (getPos e) t); [left; exists t'; tauto|]. simpl.
    intros Hin. apply updateTrail_origin in Hin. destruct Hin as (u & Hu & [->| ->]).
    + left. exists u. tauto.
    + left. exists u. split; [exact Hu|]. right. right. eexists. reflexivity.
  - left. exists t'. tauto.
  - intros Hin. change (In t' (trailsRef (render s))) in Hin.
    rewrite render_trails in Hin. apply in_map_iff in Hin.
    destruct Hin as (u & <- & Hu). apply filter_In in Hu.
    left. exists u. tauto.
Qed.

(** X13. Along any step from a reachable state a trail keeps its base hue
    and its creation time, and its cumulative distance does not decrease:
    the trail registered under the same identifier after the step has the
    same [baseHue] and [lastUpdateTime] and a [cumulativeDistance] that is
    at least the one before. *)
Theorem trail_fields_over_step (s : State) (ev : Event) (t t' : Trail) :
  reachable s -> In t (trailsRef s) -> In t' (trailsRef (step s ev)) ->
  trailId t' = trailId t ->
  baseHue t' = baseHue t /\
  lastUpdateTime t' = lastUpdateTime t /\
  cumulativeDistance t <= cumulativeDistance t'.
Proof.
  intros Hreach Ht Ht' Hid.
  destruct (reachable_invariant s Hreach) as [Hnd Hfresh _ _].
  destruct (step_trail_origin s ev t' Ht') as [(u & Hu & Hcase)|Hnew].
  - assert (Hsame : trailId u = trailId t).
    { destruct Hcase as [->|[->|[pos ->]]]; exact Hid. }
    assert (u = t) by (eapply ids_injective; eauto). subst u.
    destruct Hcase as [->|[->|[pos ->]]]; simpl; repeat split; try lra.
    destruct (lastPoint t) as [lp|]; [|lra].
    pose proof (getDistance_nonneg pos lp). lra.
  - rewrite List.Forall_forall in Hfresh.
    assert (trailId t < trailIdCounterRef s)%Z
      by (apply Hfresh; unfold trailIds; apply in_map; exact Ht).
    lia.
Qed.

Lemma trail_fields_over_step_witness :
  cumulativeDistance (mouseTrail 1)
  <= cumulativeDistance (extendTrail {| pos_x := 860; pos_y := 10 |} (mouseTrail 1)).
Proof.
  apply (trail_fields_over_step (mouseDrawn 1) (Move (MouseEvent 860 10))
           (mouseTrail 1) (extendTrail {| pos_x := 860; pos_y := 10 |} (mouseTrail 1))
           reachable_mouseDrawn_1).
  - left. reflexivity.
  - assert (Hf : findTrailById (handleMove (MouseEvent 860 10) (mouseDrawn 1)) 0
                 = Some (extendTrail (getPos (MouseEvent 860 10)) (mouseTrail 1))).
    { apply handleMove_accepted; [reflexivity | reflexivity |].
      apply (tooClose_false _ {| pos_x := 10; pos_y := 10 |}); [reflexivity|].
      cbn [getPos]. rewrite distance_along_x by lra. unfold MIN_DISTANCE. lra. }
    unfold findTrailById in Hf. apply find_some in Hf. exact (proj1 Hf).
  - reflexivity.
Defined.

(** ** How long a trail lasts *)

Lemma visible_after_fade (p : TrailPoint) :
  isVisible (fadePoint p) = bool_decide (FADE_SPEED < alpha p).
Proof.
  unfold isVisible. simpl.
  destruct (decide (FADE_SPEED < alpha p)) as [H|H].
  - rewrite (bool_decide_eq_true_2 _ H). apply bool_decide_eq_true_2.
    rewrite Rmax_left; lra.
  - rewrite (bool_decide_eq_false_2 _ H). apply bool_decide_eq_false_2.
    rewrite Rmax_right; lra.
Qed.

Lemma remaining_count (t : Trail) :
  (2 <= length (points t))%nat ->
  length (remaining t) =
  length (List.filter (fun p => bool_decide (FADE_SPEED < alpha p)) (points t)).
Proof.
  intros Hlen. unfold remaining, fadeTrail.
  destruct (Nat.ltb_spec (length (points t)) 2); [lia|]. simpl.
  clear. induction (points t) as [|p ps IH]; simpl; [reflexivity|].
  rewrite visible_after_fade.
  destruct (bool_decide (FADE_SPEED < alpha p)); simpl; rewrite IH; reflexivity.
Qed.

(** X14. A registered trail of a reachable state is still registered after
    the tick exactly when at least two of its points have an alpha above
    [FADE_SPEED]. *)
Theorem trail_outlives_tick (s : State) (t : Trail) :
  reachable s -> In t (trailsRef s) ->
  (In (trailId t) (trailIds (render s)) <->
   (2 <= length (List.filter (fun p => bool_decide (FADE_SPEED < alpha p)%R) (points t)))%nat).
Proof.
  intros Hreach Hin. destruct (reachable_invariant s Hreach) as [Hnd _ Htrails _].
  rewrite List.Forall_forall in Htrails. destruct (Htrails t Hin) as [Hlen _].
  rewrite <- remaining_count by exact Hlen. rewrite render_ids. split.
  - intros Hid. apply in_map_iff in Hid. destruct Hid as (u & Hid & Hu).
    apply filter_In in Hu. destruct Hu as [Hu Hsurv].
    assert (u = t) by (eapply ids_injective; eauto). subst u.
    unfold survives in Hsurv. apply Nat.ltb_lt in Hsurv. lia.
  - intros Hcount. apply in_map. apply filter_In. split; [exact Hin|].
    unfold survives. apply Nat.ltb_lt. lia.
Qed.

Lemma trail_outlives_tick_witness :
  In 0%Z (trailIds (render (mouseDrawn 1))).
Proof.
  apply (proj2 (trail_outlives_tick (mouseDrawn 1) (mouseTrail 1) reachable_mouseDrawn_1
                  (or_introl eq_refl))).
  simpl. rewrite bool_decide_eq_true_2 by (unfold FADE_SPEED; lra). simpl. lia.
Defined.

Lemma render_lowers_alpha (a : R) (s : State) :
  (forall t p, In t (trailsRef s) -> In p (points t) -> alpha p <= a) ->
  forall t p, In t (trailsRef (render s)) -> In p (points t) ->
    0 < alpha p <= a - FADE_SPEED.
Proof.
  intros Hbound t' p' Ht' Hp'. rewrite render_trails in Ht'.
  apply in_map_iff in Ht'. destruct Ht' as (t & <- & Ht).
  apply filter_In in Ht. destruct Ht as [Ht Hsurv]. simpl in Hp'.
  unfold survives in Hsurv. apply Nat.ltb_lt in Hsurv.
  unfold remaining in Hp', Hsurv. apply filter_In in Hp'. destruct Hp' as [Hp' Hvis].
  apply isVisible_true in Hvis. split; [exact Hvis|].
  unfold fadeTrail in Hp', Hsurv.
  destruct (Nat.ltb_spec (length (points t)) 2) as [Hshort|_].
  - pose proof (filter_length_le isVisible (points t)). lia.
  - simpl in Hp'. apply in_map_iff in Hp'. destruct Hp' as (p & <- & Hp).
    simpl in *. specialize (Hbound t p Ht Hp).
    destruct (Rle_dec (alpha p - FADE_SPEED) 0) as [Hle|Hgt].
    + rewrite Rmax_right in Hvis by exact Hle. lra.
    + rewrite Rmax_left by lra. lra.
Qed.

Lemma ticks_lower_alpha (n : nat) (a : R) (s : State) :
  (forall t p, In t (trailsRef s) -> In p (points t) -> alpha p <= a) ->
  forall t p, In t (trailsRef (run s (repeat Tick n))) -> In p (points t) ->
    alpha p <= a - INR n * FADE_SPEED.
Proof.
  revert a s. induction n as [|n IH]; intros a s Hbound t p Ht Hp.
  - simpl in *. specialize (Hbound t p Ht Hp). lra.
  - rewrite S_INR. change (run s (repeat Tick (S n))) with (run (render s) (repeat Tick n)) in Ht.
    assert (H : alpha p <= a - FADE_SPEED - INR n * FADE_SPEED).
    { apply (IH (a - FADE_SPEED) (render s)) with (t := t); [|exact Ht | exact Hp].
      intros u q Hu Hq. apply (render_lowers_alpha a s Hbound u q Hu Hq). }
    lra.
Qed.

(** X15. Left alone, the canvas empties: from any reachable state, 167
    ticks or more without a pointer event leave no trail in the registry,
    so the memory held by trails is bounded by what is drawn within 167
    frames. *)
Theorem registry_empties (s : State) (n : nat) :
  reachable s -> (167 <= n)%nat -> trailsRef (run s (repeat Tick n)) = [].
Proof.
  intros Hreach Hn.
  assert (Hinv : invariant (run s (repeat Tick n)))
    by (apply reachable_invariant, reachable_run, Hreach).
  destruct (trailsRef (run s (repeat Tick n))) as [|t ts] eqn:E; [reflexivity|].
  exfalso. destruct Hinv as [_ _ Htrails _]. rewrite E in Htrails.
  inversion Htrails as [|? ? (Hlen & Hpts & _) _]; subst.
  destruct (points t) as [|p ps] eqn:Ep; [simpl in Hlen; lia|].
  inversion Hpts as [|? ? Hp _]; subst. unfold pointOK in Hp.
  assert (Hle : alpha p <= 1 - INR n * FADE_SPEED).
  { apply (ticks_lower_alpha n 1 s) with (t := t).
    - intros u q Hu Hq. destruct (reachable_invariant s Hreach) as [_ _ Hok _].
      rewrite List.Forall_forall in Hok. destruct (Hok u Hu) as (_ & Hq' & _).
      rewrite List.Forall_forall in Hq'. apply (Hq' q Hq).
    - rewrite E. left. reflexivity.
    - rewrite Ep. left. reflexivity. }
  assert (H167 : 167 <= INR n).
  { replace 167 with (INR 167) by (rewrite INR_IZR_INZ; reflexivity).
    apply le_INR. exact Hn. }
  unfold FADE_SPEED in Hle. lra.
Qed.

Lemma registry_empties_witness :
  trailsRef (run secondDown (repeat Tick 200)) = [].
Proof.
  apply (registry_empties secondDown 200).
  - apply (reachable_from_initial
             [ Start 0 (TouchEvent contactA [] [contactA]);
               Start 0 (TouchEvent contactA [contactB] [contactB]) ]).
  - lia.
Defined.

(** ** Distances *)

(** X17. [getDistance] is symmetric, never negative, and zero exactly
    between a position and itself. *)
Theorem getDistance_metric (p q : Position) :
  getDistance p q = getDistance q p /\
  0 <= getDistance p q /\
  (getDistance p q = 0 <-> p = q).
Proof.
  split; [|split].
  - unfold getDistance. f_equal. ring.
  - apply getDistance_nonneg.
  - split.
    + unfold getDistance. intros H.
      apply sqrt_eq_0 in H;
        [|apply Rplus_le_le_0_compat; apply pow2_ge_0].
      rewrite <- !Rsqr_pow2 in H. apply Rplus_sqr_eq_0 in H.
      destruct p as [px py], q as [qx qy]. cbn [pos_x pos_y] in H.
      f_equal; lra.
    + intros ->. apply getDistance_self.
Qed.

(** ** Moves and the other trails *)

Lemma updateTrail_others (id : Z) (f : Trail -> Trail) (ts : list Trail) (t : Trail) :
  In t ts -> trailId t <> id -> In t (updateTrail id f ts).
Proof.
  induction ts as [|u ts IH]; simpl; [tauto|].
  intros [->|Hin] Hne.
  - destruct (Z.eqb_spec (trailId t) id); [contradiction | left; reflexivity].
  - destruct (trailId u =? id)%Z; right; auto.
Qed.

(** X18. A move changes at most the trail its pointer is bound to: it
    creates and removes no trail, leaves the hue anchor, the counter and
    the mouse slot as they are, and every trail whose identifier is not the
    one the pointer resolves to is registered after the move exactly as it
    was before. *)
Theorem handleMove_isolated (e : PointerEvent) (s : State) :
  trailIds (handleMove e s) = trailIds s /\
  hueRef (handleMove e s) = hueRef s /\
  trailIdCounterRef (handleMove e s) = trailIdCounterRef s /\
  activeMouseTrailRef (handleMove e s) = activeMouseTrailRef s /\
  forall t, In t (trailsRef s) -> boundTrail e s <> Some (trailId t) ->
            In t (trailsRef (handleMove e s)).
Proof.
  unfold handleMove. destruct (boundTrail e s) as [id|]; [|repeat split; auto].
  destruct (findTrailById s id) as [cur|]; [|repeat split; auto].
  destruct (tooClose (getPos e) cur); [repeat split; auto|].
  unfold trailIds. simpl.
  split; [apply updateTrail_ids, extendTrail_id|]. repeat split.
  intros t Hin Hne. apply updateTrail_others; [exact Hin | congruence].
Qed.

Lemma handleMove_isolated_witness :
  In (mouseTrail 1)
     (trailsRef (handleMove (TouchEvent contactA [] [contactA])
                   (handleStart 0 (TouchEvent contactA [] [contactA]) (mouseDrawn 1)))).
Proof.
  apply (proj2 (proj2 (proj2 (proj2
           (handleMove_isolated (TouchEvent contactA [] [contactA])
              (handleStart 0 (TouchEvent contactA [] [contactA]) (mouseDrawn 1))))))).
  - left. reflexivity.
  - discriminate.
Defined.

(** ** A press and its first move *)

(** X19. A move at the very position of the press that has just been
    handled is ignored: in a reachable state, the press binds the pointer
    to the new trail, whose last recorded position is the event position,
    so the same event as a move is within [MIN_DISTANCE] and the two
    points of the new trail stay two. *)
Theorem press_then_same_move (now : R) (e : PointerEvent) (s : State) :
  reachable s ->
  handleMove e (handleStart now e s) = handleStart now e s.
Proof.
  intros Hreach.
  pose proof (counter_is_fresh s (reachable_invariant s Hreach)) as Hnew.
  eapply (handleMove_rejected e _ (trailIdCounterRef s)).
  - destruct e as [mx my|t0 others ch]; simpl; [reflexivity | apply lookup_insert_eq].
  - unfold findTrailById. simpl.
    apply (find_app_new (trailsRef s)
             {| points := _; baseHue := _; cumulativeDistance := _; lastPoint := _;
                lastUpdateTime := _; trailId := trailIdCounterRef s |}).
    exact Hnew.
  - unfold tooClose. simpl. apply bool_decide_eq_true_2.
    rewrite getDistance_self. unfold MIN_DISTANCE. lra.
Qed.

Lemma press_then_same_move_witness :
  handleMove (MouseEvent 5 5) (handleStart 0 (MouseEvent 5 5) (mouseDrawn 1))
  = handleStart 0 (MouseEvent 5 5) (mouseDrawn 1).
Proof. apply (press_then_same_move 0 (MouseEvent 5 5) (mouseDrawn 1) reachable_mouseDrawn_1). Defined.

(** * The first variant *)

Lemma legacy_cleanup_app (ts us : list (list TrailPoint)) :
  Legacy.cleanup (ts ++ us) = Legacy.cleanup ts ++ Legacy.cleanup us.
Proof. unfold Legacy.cleanup. rewrite map_app, List.filter_app. reflexivity. Qed.

Lemma legacy_cleanup_single (p : TrailPoint) : Legacy.cleanup [[p]] = [].
Proof. unfold Legacy.cleanup. simpl. destruct (isVisible p); reflexivity. Qed.

(** X20. In the first variant a press alone leaves nothing: the one-point
    trail it registers is removed by the next frame, so the registry after
    press and frame is the registry after the frame alone. *)
Theorem legacy_press_then_frame (e : PointerEvent) (s : Legacy.State) :
  Legacy.trails_ref (Legacy.render (Legacy.startDrawing e s)) =
  Legacy.trails_ref (Legacy.render s).
Proof.
  simpl. rewrite map_app, legacy_cleanup_app. simpl.
  rewrite legacy_cleanup_single. apply app_nil_r.
Qed.

Lemma legacy_empty_stays_empty (s : Legacy.State) (ev : Legacy.Event) :
  Legacy.trails_ref s = [] -> Legacy.notStart ev ->
  Legacy.trails_ref (Legacy.step s ev) = [].
Proof.
  intros Hs Hev. destruct ev as [e| |e|]; simpl in *; try tauto.
  - unfold Legacy.addTrail. destruct (Legacy.drawing_ref s); [|exact Hs].
    simpl. rewrite Hs. reflexivity.
  - rewrite Hs. reflexivity.
Qed.

(** X21. In the first variant a gesture whose first move comes after a
    frame is lost: on an empty registry, a press followed by a frame
    leaves the registry empty, and it stays empty through every later
    move, release and frame, until the next press. *)
Theorem legacy_late_gesture_lost
    (e : PointerEvent) (s : Legacy.State) (evs : list Legacy.Event) :
  Legacy.trails_ref s = [] -> Forall Legacy.notStart evs ->
  Legacy.trails_ref (Legacy.run (Legacy.render (Legacy.startDrawing e s)) evs) = [].
Proof.
  intros Hs Hevs.
  assert (H0 : Legacy.trails_ref (Legacy.render (Legacy.startDrawing e s)) = []).
  { simpl. rewrite Hs. simpl. apply legacy_cleanup_single. }
  revert H0. generalize (Legacy.render (Legacy.startDrawing e s)).
  induction Hevs as [|ev evs Hev _ IH]; intros s0 H0; simpl; [exact H0|].
  apply IH. apply legacy_empty_stays_empty; assumption.
Qed.

Lemma legacy_late_gesture_lost_witness :
  Legacy.trails_ref
    (Legacy.run (Legacy.render (Legacy.startDrawing (MouseEvent 10 10) Legacy.initialState))
       [ Legacy.AddTrail (MouseEvent 20 10); Legacy.AddTrail (MouseEvent 30 10);
         Legacy.Frame; Legacy.StopDrawing ]) = [].
Proof.
  apply legacy_late_gesture_lost.
  - reflexivity.
  - repeat constructor.
Defined.

Lemma legacy_fadeTrail_last (ps : list TrailPoint) (q : TrailPoint) :
  Legacy.fadeTrail (ps ++ [q]) = map Legacy.fadePoint ps ++ [q].
Proof.
  induction ps as [|p ps IH]; [reflexivity|].
  simpl. rewrite IH. destruct (ps ++ [q]) eqn:E; [|reflexivity].
  destruct ps; discriminate.
Qed.

Lemma legacy_fadeTrail_origin (trail : list TrailPoint) (p' : TrailPoint) :
  In p' (Legacy.fadeTrail trail) ->
  exists p, In p trail /\ (p' = p \/ p' = Legacy.fadePoint p).
Proof.
  induction trail as [|p rest IH]; [simpl; tauto|].
  destruct rest as [|r rest].
  - simpl. intros [<-|[]]. exists p. tauto.
  - change (Legacy.fadeTrail (p :: r :: rest))
      with (Legacy.fadePoint p :: Legacy.fadeTrail (r :: rest)).
    intros [<-|Hin]; [exists p; simpl; tauto|].
    destruct (IH Hin) as (u & Hu & Hor). exists u. simpl in *. tauto.
Qed.

Lemma legacy_pushToLast_Forall (P : list TrailPoint -> Prop) (p : TrailPoint)
    (ts : list (list TrailPoint)) :
  (forall trail, P trail -> P (trail ++ [p])) ->
  Forall P ts -> Forall P (Legacy.pushToLast p ts).
Proof.
  intros Hp. induction 1 as [|trail rest Ht Hrest IH]; [constructor|].
  destruct rest as [|r rest].
  - simpl. constructor; [apply Hp; exact Ht | constructor].
  - change (Legacy.pushToLast p (trail :: r :: rest))
      with (trail :: Legacy.pushToLast p (r :: rest)).
    constructor; [exact Ht | exact IH].
Qed.

Lemma legacy_fadePoint_OK (p : TrailPoint) :
  Legacy.pointOK p -> 0 < alpha (Legacy.fadePoint p) -> Legacy.pointOK (Legacy.fadePoint p).
Proof.
  intros [[Ha0 Ha1] Hh] Hvis. split; [|exact Hh]. split; [exact Hvis|].
  simpl. apply Rmax_lub; lra.
Qed.

Lemma legacy_invariant_step (s : Legacy.State) (ev : Legacy.Event) :
  Legacy.invariant s -> Legacy.invariant (Legacy.step s ev).
Proof.
  intros [Hhue Htrails]. destruct ev as [e| |e|]; simpl.
  - assert (Hh : 0 <= fmod (Legacy.hue_var s + 10) 360 < 360) by (apply fmod_range; lra).
    split; [exact Hh|]. simpl. apply List.Forall_app. split; [exact Htrails|].
    constructor; [|constructor]. split; [discriminate|].
    constructor; [|constructor]. split; simpl; [lra | exact Hh].
  - split; assumption.
  - unfold Legacy.addTrail. destruct (Legacy.drawing_ref s); [|split; assumption].
    assert (Hh : 0 <= fmod (Legacy.hue_var s + 1) 360 < 360) by (apply fmod_range; lra).
    split; [exact Hh|]. simpl. apply legacy_pushToLast_Forall; [|exact Htrails].
    intros trail [Hne Hok]. split; [destruct trail; discriminate|].
    apply List.Forall_app. split; [exact Hok|].
    constructor; [|constructor]. split; simpl; [lra | exact Hh].
  - split; [exact Hhue|]. simpl. unfold Legacy.cleanup.
    rewrite List.Forall_forall in *. intros trail Hin.
    apply filter_In in Hin. destruct Hin as [Hin Hlen].
    apply Nat.ltb_lt in Hlen. split; [destruct trail; [simpl in Hlen; lia | discriminate]|].
    rewrite map_map in Hin. apply in_map_iff in Hin. destruct Hin as (tr0 & <- & Htr0).
    destruct (Htrails tr0 Htr0) as [_ Hok].
    rewrite List.Forall_forall in *. intros p' Hp'.
    apply filter_In in Hp'. destruct Hp' as [Hp' Hvis]. apply isVisible_true in Hvis.
    destruct (legacy_fadeTrail_origin tr0 p' Hp') as (p & Hp & [->| ->]).
    + apply Hok. exact Hp.
    + apply legacy_fadePoint_OK; [apply Hok; exact Hp | exact Hvis].
Qed.

Lemma legacy_invariant_holds (s : Legacy.State) :
  Legacy.reachable s -> Legacy.invariant s.
Proof.
  induction 1 as [|s ev _ IH]; [|apply legacy_invariant_step; exact IH].
  split; [simpl; lra | constructor].
Qed.

(** X22. In every reachable state of the first variant the hue lies in
    [0, 360), no registered trail is empty, and every stored point has an
    alpha in (0,1] and a hue in [0, 360). *)
Theorem legacy_reachable_invariant (s : Legacy.State) :
  Legacy.reachable s ->
  0 <= Legacy.hue_var s < 360 /\
  forall trail, In trail (Legacy.trails_ref s) ->
    trail <> [] /\
    forall p, In p trail -> 0 < alpha p <= 1 /\ 0 <= hue p < 360.
Proof.
  intros Hreach. destruct (legacy_invariant_holds s Hreach) as [Hhue Htrails].
  split; [exact Hhue|]. intros trail Hin.
  rewrite List.Forall_forall in Htrails. destruct (Htrails trail Hin) as [Hne Hok].
  split; [exact Hne|]. rewrite List.Forall_forall in Hok. exact Hok.
Qed.

Lemma legacy_reachable_invariant_witness :
  0 <= Legacy.hue_var (Legacy.startDrawing (MouseEvent 10 10) Legacy.initialState) < 360.
Proof.
  apply (proj1 (legacy_reachable_invariant
                  (Legacy.startDrawing (MouseEvent 10 10) Legacy.initialState)
                  (Legacy.reachable_step Legacy.initialState
                     (Legacy.StartDrawing (MouseEvent 10 10)) Legacy.reachable_init))).
Defined.

(** X23. In the first variant a frame never fades the newest point of a
    trail: every trail registered after a frame from a reachable state
    comes from a trail [ps ++ [q]] registered before, and consists of the
    visible faded copies of [ps] followed by [q] itself, unchanged. *)
Theorem legacy_newest_point_kept (s : Legacy.State) (trail : list TrailPoint) :
  Legacy.reachable s -> In trail (Legacy.trails_ref (Legacy.render s)) ->
  exists ps q,
    In (ps ++ [q]) (Legacy.trails_ref s) /\
    trail = List.filter isVisible (map Legacy.fadePoint ps) ++ [q].
Proof.
  intros Hreach Hin. destruct (legacy_invariant_holds s Hreach) as [_ Htrails].
  simpl in Hin. unfold Legacy.cleanup in Hin.
  apply filter_In in Hin. destruct Hin as [Hin _].
  rewrite map_map in Hin. apply in_map_iff in Hin. destruct Hin as (tr0 & <- & Htr0).
  rewrite List.Forall_forall in Htrails. destruct (Htrails tr0 Htr0) as [Hne Hok].
  destruct (exists_last Hne) as (ps & q & ->).
  exists ps, q. split; [exact Htr0|].
  rewrite legacy_fadeTrail_last, List.filter_app. simpl.
  apply List.Forall_app in Hok. destruct Hok as [_ Hq].
  inversion Hq as [|? ? [[Hq0 _] _] _]; subst.
  assert (Hvis : isVisible q = true) by (apply isVisible_true; exact Hq0).
  rewrite Hvis. reflexivity.
Qed.

Lemma legacy_newest_point_kept_witness :
  exists ps q,
    In (ps ++ [q])
       (Legacy.trails_ref
          (Legacy.addTrail (MouseEvent 20 10)
             (Legacy.startDrawing (MouseEvent 10 10) Legacy.initialState))) /\
    [ mkTrailPoint 10 10 (1 - 0.01) (fmod (0 + 10) 360);
      mkTrailPoint 20 10 1 (fmod (fmod (0 + 10) 360 + 1) 360) ]
    = List.filter isVisible (map Legacy.fadePoint ps) ++ [q].
Proof.
  apply (legacy_newest_point_kept
           (Legacy.addTrail (MouseEvent 20 10)
              (Legacy.startDrawing (MouseEvent 10 10) Legacy.initialState))).
  - apply (Legacy.reachable_step _ (Legacy.AddTrail _)),
          (Legacy.reachable_step _ (Legacy.StartDrawing _)), Legacy.reachable_init.
  - simpl. unfold Legacy.cleanup, Legacy.fadePoint, isVisible. simpl.
    rewrite Rmax_left by lra.
    rewrite !bool_decide_eq_true_2 by lra. simpl. left. reflexivity.
Defined.
